(** * aiuc: route search over a flight database (src/main.cpp)

    A shallow embedding of [Flight] and [FlightDB<N>]: the 20-character name
    arrays, the vector of flights [db], the backtracking stack [bt], and the
    member functions [append_flight], [get_distance], [find_connecting],
    [search_flight<M>] and [route<M>], written in a state and error monad
    whose errors are the exception and the undefined behaviours the C++ code
    can run into.

    The definitions come first: the model, then the vocabulary of the
    properties and a few small databases.  The lemmas follow: arrays and
    names, the two scans, what a search may change, one activation of each
    strategy case by case, termination, soundness and completeness of the
    depth-first search, what [route] prints, the lookups on names that can
    be read; then insertion, the depth-first and lookahead strategies on the
    database of [main], and names that do not fit their arrays. *)

From Stdlib Require Import Ascii String List ZArith Lia Bool Arith.
Import ListNotations.

Local Open Scope Z_scope.

(** ** Character data *)

(** A [std::string_view]: a sequence of characters with its length; it may
    hold any character, the NUL character included. *)
Definition string_view := list ascii.

(** A string literal viewed as a [string_view]. *)
Definition sv (s : string) : string_view := list_ascii_of_string s.

Definition NUL : ascii := Ascii.zero.

Definition is_NUL (c : ascii) : bool := Ascii.eqb c NUL.

(** [std::array<char, 20>] *)
Definition NAME_SIZE : nat := 20.

Definition char_array := list ascii.

(** [std::array<char, 20> a{}] : value-initialised, every byte NUL. *)
Definition zeroed : char_array := repeat NUL NAME_SIZE.

(** [v.copy(a.data(), a.size())] : the first [min (size v) (size a)]
    characters of [v] overwrite the start of the array, the rest of the
    array stays as it was.  No terminator is written. *)
Definition copy_into (a : char_array) (v : string_view) : char_array :=
  firstn (length a) v ++ skipn (length v) a.

(** The array of a new [Flight] after the constructor's copy. *)
Definition copy (v : string_view) : char_array := copy_into zeroed v.

(** Reading an array through [a.data()] as a C string (what
    [string_view(const char* )] and [printf("%s")] do): the characters before
    the first NUL.  [None] when the array holds no NUL: the read runs past
    the end of the array, which is undefined behaviour. *)
Fixpoint c_str (a : char_array) : option string_view :=
  match a with
  | [] => None
  | c :: r =>
      if is_NUL c then Some []
      else match c_str r with
           | Some s => Some (c :: s)
           | None => None
           end
  end.

(** [v.compare(w) == 0] : same length and same characters. *)
Fixpoint sv_eqb (v w : string_view) : bool :=
  match v, w with
  | [], [] => true
  | c :: v', d :: w' => Ascii.eqb c d && sv_eqb v' w'
  | _, _ => false
  end.

(** ** [int] *)

(** A 32-bit signed [int].  Its range; an addition whose result leaves
    the range is undefined behaviour ([int_add], below). *)
Definition INT_MIN : Z := - 2 ^ 31.
Definition INT_MAX : Z := 2 ^ 31 - 1.

Definition in_int (z : Z) : bool := (INT_MIN <=? z) && (z <=? INT_MAX).

(** ** [struct Flight] *)

Record Flight : Type := mkFlight {
  from : char_array;
  to : char_array;
  skip : bool;
  distance : Z
}.

Definition city_pair : Type := string_view * string_view.

(** [Flight(from_to, distance)] *)
Definition Flight_new (from_to : city_pair) (dist : Z) : Flight :=
  let (f, t) := from_to in
  {| from := copy f; to := copy t; skip := false; distance := dist |}.

(** Outcome of an expression that reads C strings. *)
Inductive read (A : Type) : Type :=
| Read (a : A)
| Overrun.
Arguments Read {A} a.
Arguments Overrun {A}.

(** [v.compare(a.data()) == 0] *)
Definition compare0 (v : string_view) (a : char_array) : read bool :=
  match c_str a with
  | Some s => Read (sv_eqb v s)
  | None => Overrun
  end.

(** [Flight::operator==] : [&&] evaluates its right operand only when the
    left one holds. *)
Definition Flight_eq (fl : Flight) (q : city_pair) : read bool :=
  let (_from, _to) := q in
  match compare0 _from (from fl) with
  | Read true => compare0 _to (to fl)
  | Read false => Read false
  | Overrun => Overrun
  end.

(** ** [class FlightDB<N>] *)

Record FlightDB : Type := mkDB {
  db : list Flight;
  bt : list Flight   (* std::stack<Flight>, top first *)
}.

Inductive SearchMethod : Type := BreadthFirst | DepthFirst.

(** Undefined behaviour the member functions can run into. *)
Inductive UB : Type :=
| StackUnderflow     (* bt.top() / bt.pop() on an empty stack *)
| BufferOverrun      (* a C-string read of an array without NUL *)
| SignedOverflow.    (* an int addition whose result is no int *)

(** How a member function ends: it returns a value and leaves a state, it
    throws [std::bad_optional_access] (from [optional::value()]) in some
    state, or its behaviour is undefined.  [OutOfFuel] belongs to the
    embedding only: the recursion bound of the searches ran out. *)
Inductive outcome (A : Type) : Type :=
| Ok (a : A) (s : FlightDB)
| BadOptionalAccess (s : FlightDB)
| Undefined (u : UB)
| OutOfFuel.
Arguments Ok {A} a s.
Arguments BadOptionalAccess {A} s.
Arguments Undefined {A} u.
Arguments OutOfFuel {A}.

Definition M (A : Type) : Type := FlightDB -> outcome A.

Definition ret {A} (a : A) : M A := fun s => Ok a s.

Definition bind {A B} (m : M A) (k : A -> M B) : M B :=
  fun s =>
    match m s with
    | Ok a s' => k a s'
    | BadOptionalAccess s' => BadOptionalAccess s'
    | Undefined u => Undefined u
    | OutOfFuel => OutOfFuel
    end.

Declare Scope flight_scope.
Delimit Scope flight_scope with flight.
Notation "x <- m ;; k" := (bind m (fun x => k))
  (at level 61, m at next level, right associativity) : flight_scope.
Notation "m ;; k" := (bind m (fun _ => k))
  (at level 61, right associativity) : flight_scope.
Local Open Scope flight_scope.

(** [string_view(a.begin())] *)
Definition view_of (a : char_array) : M string_view :=
  fun s => match c_str a with
           | Some v => Ok v s
           | None => Undefined BufferOverrun
           end.

(** [o.value()] *)
Definition value {A} (o : option A) : M A :=
  fun s => match o with
           | Some a => Ok a s
           | None => BadOptionalAccess s
           end.

(** [o.value_or(d)] *)
Definition value_or {A} (o : option A) (d : A) : A :=
  match o with
  | Some a => a
  | None => d
  end.

(** [a + b] on [int]. *)
Definition int_add (a b : Z) : M Z :=
  fun s => if in_int (a + b) then Ok (a + b) s
           else Undefined SignedOverflow.

(** [FlightDB()] : [db.reserve(N)] allocates room for [N] flights and
    stores none. *)
Definition FlightDB_new (N : nat) : FlightDB := {| db := []; bt := [] |}.

(** [append_flight] : [db.emplace_back(from_to, distance)]. *)
Definition append_flight (from_to : city_pair) (dist : Z) : M unit :=
  fun s => Ok tt {| db := db s ++ [Flight_new from_to dist]; bt := bt s |}.

(** [bt.emplace(from_to, dist)] *)
Definition bt_emplace (from_to : city_pair) (dist : Z) : M unit :=
  fun s => Ok tt {| db := db s; bt := Flight_new from_to dist :: bt s |}.

(** [bt.top()] *)
Definition bt_top : M Flight :=
  fun s => match bt s with
           | f :: _ => Ok f s
           | [] => Undefined StackUnderflow
           end.

(** [bt.pop()] *)
Definition bt_pop : M unit :=
  fun s => match bt s with
           | _ :: r => Ok tt {| db := db s; bt := r |}
           | [] => Undefined StackUnderflow
           end.

(** [std::find_if(db.begin(), db.end(), [&](const auto& f) { return f == from_to; })] *)
Fixpoint find_if (l : list Flight) (q : city_pair) : read (option Flight) :=
  match l with
  | [] => Read None
  | f :: r =>
      match Flight_eq f q with
      | Read true => Read (Some f)
      | Read false => find_if r q
      | Overrun => Overrun
      end
  end.

(** [get_distance] *)
Definition get_distance (from_to : city_pair) : M (option Z) :=
  fun s =>
    match find_if (db s) from_to with
    | Read (Some res) => Ok (Some (distance res)) s
    | Read None => Ok None s
    | Overrun => Undefined BufferOverrun
    end.

Definition set_skip (f : Flight) : Flight :=
  {| from := from f; to := to f; skip := true; distance := distance f |}.

(** The loop of [find_connecting] over the vector: the vector after the
    loop, and the flight that was taken, if any. *)
Fixpoint connecting (l : list Flight) (frm : string_view)
  : read (list Flight * option Flight) :=
  match l with
  | [] => Read ([], None)
  | f :: r =>
      match compare0 frm (from f) with
      | Read b =>
          if b && negb (skip f) then Read (set_skip f :: r, Some f)
          else match connecting r frm with
               | Read (r', res) => Read (f :: r', res)
               | Overrun => Overrun
               end
      | Overrun => Overrun
      end
  end.

(** [find_connecting] *)
Definition find_connecting (frm : string_view) : M (option (string_view * Z)) :=
  fun s =>
    match connecting (db s) frm with
    | Read (l', Some f) =>
        (anywhere <- view_of (to f) ;;
         ret (Some (anywhere, distance f))) {| db := l'; bt := bt s |}
    | Read (l', None) => Ok None {| db := l'; bt := bt s |}
    | Overrun => Undefined BufferOverrun
    end.

(** What one activation of [search_flight] does when it ends: it returns,
    or it calls itself (loops again, for the lookahead loop). *)
Inductive next : Type :=
| Return
| Recurse (from_to : city_pair).

(** The part of [search_flight] after the strategy's own block
    ("try another connection", else "backtrack"). *)
Definition try_another_connection (from_to : city_pair) : M next :=
  let (frm, dst) := from_to in
  res <- find_connecting frm ;;
  match res with
  | Some (anywhere, d) =>
      bt_emplace from_to d ;;
      ret (Recurse (anywhere, dst))
  | None =>
      f <- bt_top ;;
      bt_pop ;;
      f_from <- view_of (from f) ;;
      f_to <- view_of (to f) ;;
      ret (Recurse (f_from, f_to))
  end.

(** One activation of [search_flight<DepthFirst>], up to its recursive call:
    "see if destination is reached", then the common part. *)
Definition search_flight_df_body (from_to : city_pair) : M next :=
  o <- get_distance from_to ;;
  let dist := value_or o 0 in
  if 0 <? dist then
    bt_emplace from_to dist ;;
    ret Return
  else try_another_connection from_to.

Fixpoint search_flight_df (fuel : nat) (from_to : city_pair) : M unit :=
  match fuel with
  | O => fun _ => OutOfFuel
  | S n =>
      x <- search_flight_df_body from_to ;;
      match x with
      | Return => ret tt
      | Recurse q => search_flight_df n q
      end
  end.

(** One turn of the [while (true)] loop of [search_flight<BreadthFirst>];
    [Recurse] stands for the next turn. *)
Definition search_flight_bf_body (from_to : city_pair) : M next :=
  let (frm, dst) := from_to in
  res <- find_connecting frm ;;
  p <- value res ;;
  let (anywhere, dist) := p : string_view * Z in
  if 0 <? dist then
    let any_to := (anywhere, dst) in
    o <- get_distance any_to ;;
    let d := value_or o 0 in
    if 0 <? d then
      bt_emplace from_to dist ;;
      bt_emplace any_to d ;;
      ret Return
    else ret (Recurse from_to)
  else ret (Recurse from_to).

Fixpoint search_flight_bf (fuel : nat) (from_to : city_pair) : M unit :=
  match fuel with
  | O => fun _ => OutOfFuel
  | S n =>
      x <- search_flight_bf_body from_to ;;
      match x with
      | Return => ret tt
      | Recurse q => search_flight_bf n q
      end
  end.

(** Number of flights not yet marked. *)
Definition unmarked (l : list Flight) : nat :=
  length (filter (fun f => negb (skip f)) l).

(** [search_flight<M>].  Each depth-first activation marks a flight and
    pushes a frame, or pops a frame; each lookahead turn marks a flight: the
    bounds below are never reached ([search_flight_total]). *)
Definition search_flight (m : SearchMethod) (from_to : city_pair) : M unit :=
  fun s =>
    match m with
    | DepthFirst =>
        search_flight_df (S (2 * unmarked (db s) + length (bt s))) from_to s
    | BreadthFirst =>
        search_flight_bf (S (unmarked (db s))) from_to s
    end.

(** What [route] prints: the names before each " to ", the last name, and
    the distance. *)
Record printed : Type := mkPrinted {
  stops : list string_view;
  last_stop : string_view;
  total : Z
}.

(** The [while (!bt.empty())] loop of [route]: [fuel] bounds the stack
    height. *)
Fixpoint drain (fuel : nat) (dist : Z) (acc : list string_view)
  : M (list string_view * Z) :=
  fun s =>
    match bt s with
    | [] => Ok (rev acc, dist) s
    | _ :: _ =>
        match fuel with
        | O => OutOfFuel
        | S n =>
            (t <- bt_top ;;
             name <- view_of (from t) ;;
             dist' <- int_add dist (distance t) ;;
             bt_pop ;;
             drain n dist' (name :: acc)) s
        end
    end.

(** [route<M>].  The final [printf("%s\n", from_to.second.begin())] reads
    a C string at the first character of the destination view: the
    characters of the view and then those that follow it in its buffer,
    [beyond], up to the first NUL.  For a string literal [beyond] is the
    literal's terminator; a buffer that ends without NUL is read past. *)
Definition route (m : SearchMethod) (from_to : city_pair)
           (beyond : list ascii) : M printed :=
  search_flight m from_to ;;
  fun s =>
    (r <- drain (length (bt s)) 0 [] ;;
     last <- view_of (snd from_to ++ beyond) ;;
     ret {| stops := fst r; last_stop := last; total := snd r |}) s.

(** ** The flights of [main] *)

Definition main_flights : list (string * string * Z) :=
  [ ("New York", "Chicago", 1000);
    ("Chicago", "Denver", 1000);
    ("New York", "Toronto", 800);
    ("New York", "Denver", 1900);
    ("Toronto", "Calgary", 1500);
    ("Toronto", "Los Angeles", 1800);
    ("Toronto", "Chicago", 500);
    ("Denver", "Urbana", 1000);
    ("Denver", "Houston", 1500);
    ("Houston", "Los Angeles", 1500);
    ("Denver", "Los Angeles", 1000) ]%string.

Definition MAX : nat := 100.

(** Appends in order; stops at the first call that does not return. *)
Fixpoint append_all (l : list (string * string * Z)) : M unit :=
  match l with
  | [] => ret tt
  | (f, t, d) :: r => append_flight (sv f, sv t) d ;; append_all r
  end.

Definition state_of {A} (o : outcome A) : option FlightDB :=
  match o with
  | Ok _ s => Some s
  | BadOptionalAccess s => Some s
  | _ => None
  end.

Definition main_db : FlightDB :=
  match state_of (append_all main_flights (FlightDB_new MAX)) with
  | Some s => s
  | None => FlightDB_new MAX
  end.

(** ** Vocabulary of the properties *)

(** A name that fits an array with its terminator: shorter than the array
    and free of NUL. *)
Definition fits (v : string_view) : Prop :=
  (length v < NAME_SIZE)%nat /\ Forall (fun c => is_NUL c = false) v.

(** [q] is exactly the pair of names stored in [f]. *)
Definition matches (f : Flight) (q : city_pair) : Prop :=
  c_str (from f) = Some (fst q) /\ c_str (to f) = Some (snd q).

(** [f == q] is evaluated and is false. *)
Definition differs (q : city_pair) (f : Flight) : Prop :=
  Flight_eq f q = Read false.

(** The loop of [find_connecting] looks at [f] and goes on: the origin is
    read and differs, or the flight is marked. *)
Definition passed_over (frm : string_view) (f : Flight) : Prop :=
  exists b, compare0 frm (from f) = Read b /\ b && negb (skip f) = false.

(** [f] leaves [frm] and is not marked: the flight [find_connecting]
    looks for. *)
Definition departs (frm : string_view) (f : Flight) : Prop :=
  c_str (from f) = Some frm /\ skip f = false.

(** The flight the constructor makes from two names and a distance, with
    the mark [b]: [Flight_new (o, d) w] is [stored o d w false]. *)
Definition stored (o d : string_view) (w : Z) (b : bool) : Flight :=
  {| from := copy o; to := copy d; skip := b; distance := w |}.

(** The state [s0] with the flight [f] put in at position [n] of the
    vector. *)
Definition put_back (n : nat) (f : Flight) (s0 : FlightDB) : FlightDB :=
  {| db := firstn n (db s0) ++ f :: skipn n (db s0); bt := bt s0 |}.

(** An outcome, with the flight [f] put in at position [n] of the vector of
    the state it leaves. *)
Definition with_flight {A} (n : nat) (f : Flight) (o : outcome A)
  : outcome A :=
  match o with
  | Ok a s0 => Ok a (put_back n f s0)
  | BadOptionalAccess s0 => BadOptionalAccess (put_back n f s0)
  | Undefined u => Undefined u
  | OutOfFuel => OutOfFuel
  end.

(** [g] is [f] with at most its [skip] mark raised. *)
Definition same_edge (f g : Flight) : Prop :=
  from f = from g /\ to f = to g /\ distance f = distance g /\
  (skip f = true -> skip g = true).

(** Same flights in the same order; marks only raised. *)
Definition marks_only (l l' : list Flight) : Prop := Forall2 same_edge l l'.

(** A computation keeps the flights and only raises marks, in whatever
    state it returns or throws. *)
Definition preserves {A} (m : M A) : Prop :=
  forall s s', state_of (m s) = Some s' -> marks_only (db s) (db s').

(** The flights with all marks cleared. *)
Definition clear_skip (f : Flight) : Flight :=
  {| from := from f; to := to f; skip := false; distance := distance f |}.

(** Sum of the distances of a list of frames. *)
Definition sum_distance (l : list Flight) : Z :=
  fold_right (fun f acc => distance f + acc) 0 l.

(** Both arrays of the flight hold a terminator: they can be read as C
    strings. *)
Definition terminated (f : Flight) : Prop :=
  c_str (from f) <> None /\ c_str (to f) <> None.

(** A flight as the constructor makes it: two arrays of 20 characters,
    each holding a terminator. *)
Definition well_formed (f : Flight) : Prop :=
  length (from f) = NAME_SIZE /\ length (to f) = NAME_SIZE /\ terminated f.

(** The vector holds a flight from [u] to [v] of distance [w]. *)
Definition flight_between (l : list Flight) (u v : string_view) (w : Z)
  : Prop :=
  exists g, In g l /\ c_str (from g) = Some u /\ c_str (to g) = Some v /\
            distance g = w.

(** Some flights of the vector, one or more, lead from [u] to [v]. *)
Inductive connected (l : list Flight) : string_view -> string_view -> Prop :=
| connected_direct (u v : string_view) (w : Z) :
    flight_between l u v w -> connected l u v
| connected_via (u x v : string_view) (w : Z) :
    flight_between l u x w -> connected l x v -> connected l u v.

(** [chain l o dst cur st]: the stack [st], read from its bottom, records
    flights of [l] that lead from [o] to [cur]; each frame holds the origin
    of its flight, the searched destination [dst] and the flight's
    distance. *)
Inductive chain (l : list Flight) (o dst : string_view)
  : string_view -> list Flight -> Prop :=
| chain_nil : chain l o dst o []
| chain_cons (u cur : string_view) (w : Z) (r : list Flight) :
    chain l o dst u r -> flight_between l u cur w -> fits u ->
    chain l o dst cur
          ({| from := copy u; to := copy dst; skip := false; distance := w |}
             :: r).

(** How a depth-first search for [dst], started from [o], ends when the
    flights are well formed: it returns with a stack that records flights
    from [o] to [dst], the top one of positive distance; or it pops the
    empty stack. *)
Definition df_found (o dst : string_view) (out : outcome unit) : Prop :=
  match out with
  | Ok _ s' =>
      exists u w r,
        bt s' = {| from := copy u; to := copy dst; skip := false;
                   distance := w |} :: r /\
        0 < w /\ chain (db s') o dst dst (bt s')
  | Undefined u => u = StackUnderflow
  | BadOptionalAccess _ => False
  | OutOfFuel => False
  end.

(** Every sum the loop of [route] forms, starting from [d] and adding the
    distances of the frames from the top of the stack down, is an [int]. *)
Fixpoint sums_in_int (d : Z) (frames : list Flight) : bool :=
  match frames with
  | [] => true
  | f :: r => in_int (d + distance f) && sums_in_int (d + distance f) r
  end.

(** The name a frame or flight prints as its origin. *)
Definition name_of (f : Flight) : string_view :=
  match c_str (from f) with
  | Some v => v
  | None => []
  end.

(** [walk l names ws]: each name of [names] is joined to the next by a
    flight of [l], of the distances [ws] in order. *)
Inductive walk (l : list Flight) : list string_view -> list Z -> Prop :=
| walk_end (u : string_view) : walk l [u] []
| walk_step (u v : string_view) (rest : list string_view) (w : Z)
            (ws : list Z) :
    flight_between l u v w -> walk l (v :: rest) ws ->
    walk l (u :: v :: rest) (w :: ws).

(** The ways an activation of [search_flight<DepthFirst>] on [q] in state
    [s] can end. *)
Inductive df_step (q : city_pair) (s : FlightDB) : outcome next -> Prop :=
| df_reached (w : Z) :
    get_distance q s = Ok (Some w) s -> 0 < w ->
    df_step q s (Ok Return {| db := db s; bt := Flight_new q w :: bt s |})
| df_extend (o : option Z) (anywhere : string_view) (w : Z) (s1 : FlightDB) :
    get_distance q s = Ok o s -> value_or o 0 <= 0 ->
    find_connecting (fst q) s = Ok (Some (anywhere, w)) s1 ->
    df_step q s (Ok (Recurse (anywhere, snd q))
                    {| db := db s1; bt := Flight_new q w :: bt s |})
| df_backtrack (o : option Z) (f : Flight) (r : list Flight)
               (a b : string_view) :
    get_distance q s = Ok o s -> value_or o 0 <= 0 ->
    find_connecting (fst q) s = Ok None s ->
    bt s = f :: r -> c_str (from f) = Some a -> c_str (to f) = Some b ->
    df_step q s (Ok (Recurse (a, b)) {| db := db s; bt := r |})
| df_underflow (o : option Z) :
    get_distance q s = Ok o s -> value_or o 0 <= 0 ->
    find_connecting (fst q) s = Ok None s -> bt s = [] ->
    df_step q s (Undefined StackUnderflow)
| df_overrun :
    get_distance q s = Undefined BufferOverrun \/
    find_connecting (fst q) s = Undefined BufferOverrun \/
    (exists f r, bt s = f :: r /\
                 (c_str (from f) = None \/ c_str (to f) = None)) ->
    df_step q s (Undefined BufferOverrun).

(** The ways a turn of the loop of [search_flight<BreadthFirst>] can end. *)
Inductive bf_step (q : city_pair) (s : FlightDB) : outcome next -> Prop :=
| bf_found (anywhere : string_view) (w d : Z) (s1 : FlightDB) :
    find_connecting (fst q) s = Ok (Some (anywhere, w)) s1 -> 0 < w ->
    get_distance (anywhere, snd q) s1 = Ok (Some d) s1 -> 0 < d ->
    bf_step q s
            (Ok Return
                {| db := db s1;
                   bt := Flight_new (anywhere, snd q) d
                           :: Flight_new q w :: bt s |})
| bf_again (anywhere : string_view) (w : Z) (s1 : FlightDB) :
    find_connecting (fst q) s = Ok (Some (anywhere, w)) s1 ->
    (w <= 0 \/
     exists o, get_distance (anywhere, snd q) s1 = Ok o s1 /\
               value_or o 0 <= 0) ->
    bf_step q s (Ok (Recurse q) s1)
| bf_exhausted :
    find_connecting (fst q) s = Ok None s ->
    bf_step q s (BadOptionalAccess s)
| bf_overrun : bf_step q s (Undefined BufferOverrun).

(** How a depth-first search ends: it returns with a frame on the stack, or
    its behaviour is undefined.  It has no other way out. *)
Definition df_ends (o : outcome unit) : Prop :=
  match o with
  | Ok _ s' => bt s' <> []
  | Undefined _ => True
  | BadOptionalAccess _ => False
  | OutOfFuel => False
  end.

(** How a lookahead search on [q] from [s] ends: it returns with its two
    frames on top of the stack; or it throws, every flight then being
    passed over by [find_connecting]; or it overran an array. *)
Definition bf_ends (q : city_pair) (s : FlightDB) (o : outcome unit) : Prop :=
  match o with
  | Ok _ s' =>
      exists anywhere w d,
        0 < w /\ 0 < d /\
        bt s' = Flight_new (anywhere, snd q) d :: Flight_new q w :: bt s
  | BadOptionalAccess s' =>
      Forall (passed_over (fst q)) (db s') /\ bt s' = bt s
  | Undefined u => u = BufferOverrun
  | OutOfFuel => False
  end.

(** No flight is marked: the state of a database before its first search. *)
Definition fresh (l : list Flight) : Prop :=
  Forall (fun g => skip g = false) l.

(** Every flight out of [v] is marked. *)
Definition exhausted (l : list Flight) (v : string_view) : Prop :=
  Forall (fun g => c_str (from g) = Some v -> skip g = true) l.

(** The direct check from [v] to [dst] does not succeed: no flight matches,
    or the first that does has no positive distance. *)
Definition no_direct (l : list Flight) (dst v : string_view) : Prop :=
  match find_if l (v, dst) with
  | Read (Some f) => distance f <= 0
  | Read None => True
  | Overrun => False
  end.

(** [v] is the origin of the search or the destination of a marked
    flight. *)
Definition seen (l : list Flight) (o v : string_view) : Prop :=
  v = o \/ exists g, In g l /\ skip g = true /\ c_str (to g) = Some v.

(** A frame of the stack prints [v] as its origin. *)
Definition on_stack (st : list Flight) (v : string_view) : Prop :=
  exists f, In f st /\ c_str (from f) = Some v.

(** Every place seen so far is the current one, or its direct check has
    failed and it is on the stack or exhausted. *)
Definition searched (l : list Flight) (o dst cur : string_view)
           (st : list Flight) : Prop :=
  forall v, seen l o v ->
            v = cur \/ (no_direct l dst v /\ (on_stack st v \/ exhausted l v)).

(** What holds of the flights when a depth-first search from [o] for [dst]
    pops the empty stack: from no place connected to [o], nor from [o], does
    the direct check succeed. *)
Definition looked_everywhere (l : list Flight) (o dst : string_view) : Prop :=
  forall x, x = o \/ connected l o x -> no_direct l dst x.

(** ** Small databases used as examples *)

(** A database holding the given flights, with an empty stack. *)
Definition flights_of (l : list (string * string * Z)) : FlightDB :=
  {| db := map (fun x => Flight_new (sv (fst (fst x)), sv (snd (fst x))) (snd x)) l;
     bt := [] |}.

(** A -> B (5), B -> C (7). *)
Definition two_hops : FlightDB :=
  flights_of [("A", "B", 5); ("B", "C", 7)]%string.

(** Two parallel flights A -> B, the second of distance 0. *)
Definition parallel_AB : FlightDB :=
  flights_of [("A", "B", 5); ("A", "B", 0)]%string.

(** A -> B of the largest [int] distance, B -> C (1). *)
Definition far_hops : FlightDB :=
  flights_of [("A", "B", 2147483647); ("B", "C", 1)]%string.

(** A single flight A -> B of distance 0. *)
Definition zero_AB : FlightDB := flights_of [("A", "B", 0)]%string.

(** A database built with capacity 2 and holding 2 flights. *)
Definition full_of_two : FlightDB :=
  match state_of (append_all [("A", "B", 5); ("B", "C", 7)]%string
                    (FlightDB_new 2)) with
  | Some s => s
  | None => FlightDB_new 2
  end.

(** [l] with the marks [m], position by position. *)
Definition with_marks (l : list Flight) (m : list bool) : list Flight :=
  map (fun p => {| from := from (fst p); to := to (fst p); skip := snd p;
                   distance := distance (fst p) |})
      (combine l m).

(** The database of [main] after its search from New York to Los Angeles. *)
Definition main_db_after : FlightDB :=
  match state_of (search_flight DepthFirst (sv "New York", sv "Los Angeles")
                    main_db) with
  | Some s => s
  | None => main_db
  end.

(** The name AB followed by a NUL character: three characters. *)
Definition AB_NUL : string_view := sv "AB" ++ [NUL].

(** ** Further vocabulary and states of the database of [main] *)

(** The state left by [route<DepthFirst>] from New York to Los Angeles, and
    the one in which [route<BreadthFirst>] from Toronto to Urbana throws. *)
Definition main_db_routed : FlightDB :=
  {| db := with_marks (db main_db)
             [true; true; false; false; false; false; false; false; false;
              false; false];
     bt := [] |}.

Definition main_db_thrown : FlightDB :=
  {| db := with_marks (db main_db)
             [false; false; false; false; true; true; true; false; false;
              false; false];
     bt := [] |}.

(** A name of exactly twenty letters. *)
Definition twenty_letters : string_view := sv "ABCDEFGHIJKLMNOPQRST".

(** [two_hop s o dst a w d]: in state [s] an unmarked flight of positive
    distance [w] leads from [o] to [a], and the first exact flight from [a]
    to [dst] has the positive distance [d]. *)
Definition two_hop (s : FlightDB) (o dst a : string_view) (w d : Z) : Prop :=
  (exists g, In g (db s) /\ skip g = false /\ c_str (from g) = Some o /\
             c_str (to g) = Some a /\ distance g = w) /\
  0 < w /\ get_distance (a, dst) s = Ok (Some d) s /\ 0 < d.

(** The state in which the lookahead from New York to Los Angeles returns:
    it has tried Chicago, then Toronto. *)
Definition main_db_lookahead : FlightDB :=
  {| db := with_marks (db main_db)
             [true; false; true; false; false; false; false; false; false;
              false; false];
     bt := [Flight_new (sv "Toronto", sv "Los Angeles") 1800;
            Flight_new (sv "New York", sv "Los Angeles") 800] |}.

(** ** Characters and arrays *)

Lemma sv_eqb_eq (v w : string_view) : sv_eqb v w = true <-> v = w.
Proof.
  revert w; induction v as [|c v IH]; intros [|d w]; simpl;
    try (split; [discriminate | congruence]); try tauto.
  rewrite andb_true_iff, Ascii.eqb_eq, IH.
  split; [intros [-> ->]; reflexivity | intros H; inversion H; auto].
Qed.

Lemma sv_eqb_refl (v : string_view) : sv_eqb v v = true.
Proof. apply sv_eqb_eq; reflexivity. Qed.

Lemma sv_eqb_neq (v w : string_view) : v <> w -> sv_eqb v w = false.
Proof.
  intros H; destruct (sv_eqb v w) eqn:E; [|reflexivity].
  apply sv_eqb_eq in E; contradiction.
Qed.

Lemma skipn_repeat_NUL (n m : nat) :
  skipn n (repeat NUL m) = repeat NUL (m - n).
Proof.
  revert m; induction n as [|n IH]; intros [|m]; simpl; auto.
Qed.

Lemma copy_unfold (v : string_view) :
  copy v = firstn NAME_SIZE v ++ repeat NUL (NAME_SIZE - length v).
Proof.
  unfold copy, copy_into, zeroed.
  rewrite repeat_length, skipn_repeat_NUL. reflexivity.
Qed.

Lemma length_copy (v : string_view) : length (copy v) = NAME_SIZE.
Proof.
  rewrite copy_unfold, length_app, length_firstn, repeat_length. lia.
Qed.

Lemma copy_firstn (v : string_view) : copy (firstn NAME_SIZE v) = copy v.
Proof.
  rewrite !copy_unfold, firstn_firstn, Nat.min_id, length_firstn.
  f_equal. f_equal. lia.
Qed.

Lemma c_str_app_NUL (v r : list ascii) :
  Forall (fun c => is_NUL c = false) v -> c_str (v ++ NUL :: r) = Some v.
Proof.
  induction 1 as [|c v Hc _ IH]; simpl; [reflexivity|].
  rewrite Hc, IH. reflexivity.
Qed.

(** A name that fits is read back from its array as it was written. *)
Lemma c_str_copy (v : string_view) : fits v -> c_str (copy v) = Some v.
Proof.
  intros [Hlen Hnul]. rewrite copy_unfold.
  rewrite firstn_all2 by lia.
  destruct (NAME_SIZE - length v)%nat eqn:E; [lia|].
  simpl. apply c_str_app_NUL; assumption.
Qed.

(** What a C-string read returns is free of NUL and shorter than the array. *)
Lemma c_str_Some (a : char_array) (v : string_view) :
  c_str a = Some v ->
  (length v < length a)%nat /\ Forall (fun c => is_NUL c = false) v /\
  exists r, a = v ++ NUL :: r.
Proof.
  revert v; induction a as [|c a IH]; simpl; intros v H; [discriminate|].
  destruct (is_NUL c) eqn:Ec.
  - inversion H; subst. simpl. split; [lia|]. split; [constructor|].
    exists a. apply Ascii.eqb_eq in Ec. subst; reflexivity.
  - destruct (c_str a) as [w|] eqn:Ea; [|discriminate].
    inversion H; subst. destruct (IH w eq_refl) as (Hl & Hf & r & Hr).
    simpl. split; [lia|]. split; [constructor; assumption|].
    exists r. rewrite Hr at 1. reflexivity.
Qed.

Lemma c_str_fits (a : char_array) (v : string_view) :
  length a = NAME_SIZE -> c_str a = Some v -> fits v.
Proof.
  intros Hl H. destruct (c_str_Some _ _ H) as (Hlt & Hf & _).
  split; [lia | assumption].
Qed.

Lemma compare0_copy (w v : string_view) :
  fits v -> compare0 w (copy v) = Read (sv_eqb w v).
Proof. intros H. unfold compare0. rewrite (c_str_copy _ H). reflexivity. Qed.

Lemma Flight_eq_matches (f : Flight) (q : city_pair) :
  Flight_eq f q = Read true <-> matches f q.
Proof.
  destruct q as [o d]. unfold Flight_eq, matches, compare0; simpl.
  destruct (c_str (from f)) as [a|]; [|split; [discriminate | intros [H _]; discriminate]].
  destruct (sv_eqb o a) eqn:Eo.
  - apply sv_eqb_eq in Eo; subst a.
    destruct (c_str (to f)) as [b|]; [|split; [discriminate | intros [_ H]; discriminate]].
    split.
    + intros H. inversion H as [Hb]. apply sv_eqb_eq in Hb. subst; auto.
    + intros [_ H]. inversion H; subst. rewrite sv_eqb_refl. reflexivity.
  - split; [discriminate|]. intros [H _]. inversion H; subst.
    rewrite sv_eqb_refl in Eo. discriminate.
Qed.

(** On a flight built from names that fit, [==] is equality of the names. *)
Lemma Flight_eq_new (o d o' d' : string_view) (w : Z) :
  fits o -> fits d ->
  Flight_eq (Flight_new (o, d) w) (o', d') = Read (sv_eqb o' o && sv_eqb d' d).
Proof.
  intros Ho Hd. unfold Flight_eq, Flight_new; simpl.
  rewrite (compare0_copy _ _ Ho), (compare0_copy _ _ Hd).
  destruct (sv_eqb o' o); reflexivity.
Qed.

(** ** The scans *)

Lemma state_eta (s : FlightDB) : {| db := db s; bt := bt s |} = s.
Proof. destruct s; reflexivity. Qed.

Lemma find_if_first (l1 l2 : list Flight) (f : Flight) (q : city_pair) :
  Forall (differs q) l1 -> matches f q ->
  find_if (l1 ++ f :: l2) q = Read (Some f).
Proof.
  intros H Hf. induction H as [|g l1 Hg _ IH]; simpl.
  - apply Flight_eq_matches in Hf. rewrite Hf. reflexivity.
  - unfold differs in Hg. rewrite Hg. exact IH.
Qed.

Lemma find_if_none (l : list Flight) (q : city_pair) :
  Forall (differs q) l -> find_if l q = Read None.
Proof.
  induction 1 as [|g l Hg _ IH]; simpl; [reflexivity|].
  unfold differs in Hg. rewrite Hg. exact IH.
Qed.

Lemma find_if_Some_inv (l : list Flight) (q : city_pair) (f : Flight) :
  find_if l q = Read (Some f) ->
  exists l1 l2, l = l1 ++ f :: l2 /\ Forall (differs q) l1 /\ matches f q.
Proof.
  induction l as [|g l IH]; simpl; [discriminate|].
  destruct (Flight_eq g q) as [[|]|] eqn:E; [| |discriminate].
  - intros H; inversion H; subst.
    exists [], l. split; [reflexivity|]. split; [constructor|].
    apply Flight_eq_matches; assumption.
  - intros H. destruct (IH H) as (l1 & l2 & -> & Hd & Hm).
    exists (g :: l1), l2. split; [reflexivity|]. split; [|assumption].
    constructor; assumption.
Qed.

Lemma find_if_None_inv (l : list Flight) (q : city_pair) :
  find_if l q = Read None -> Forall (differs q) l.
Proof.
  induction l as [|g l IH]; simpl; [constructor|].
  destruct (Flight_eq g q) as [[|]|] eqn:E; try discriminate.
  intros H. constructor; [exact E | exact (IH H)].
Qed.

Lemma Flight_eq_clear_skip (f : Flight) (q : city_pair) :
  Flight_eq (clear_skip f) q = Flight_eq f q.
Proof. destruct q; reflexivity. Qed.

(** [find_if] reads no mark: two vectors that agree up to the marks give
    the same answer, up to the mark of the flight found. *)
Lemma find_if_marks (l l' : list Flight) (q : city_pair) :
  map clear_skip l' = map clear_skip l ->
  match find_if l q, find_if l' q with
  | Read (Some f), Read (Some f') => distance f' = distance f
  | Read None, Read None => True
  | Overrun, Overrun => True
  | _, _ => False
  end.
Proof.
  revert l'; induction l as [|g l IH]; intros [|g' l'] H;
    try discriminate; [exact I|].
  assert (Hg : clear_skip g' = clear_skip g)
    by exact (f_equal (hd (clear_skip g)) H).
  assert (Hl : map clear_skip l' = map clear_skip l)
    by exact (f_equal (@tl _) H).
  cbn [find_if].
  rewrite <- (Flight_eq_clear_skip g), <- (Flight_eq_clear_skip g'), Hg.
  destruct (Flight_eq (clear_skip g) q) as [[|]|]; [| apply IH; assumption | exact I].
  change (distance (clear_skip g') = distance (clear_skip g)).
  rewrite Hg. reflexivity.
Qed.


Lemma compare0_true (v : string_view) (a : char_array) :
  compare0 v a = Read true <-> c_str a = Some v.
Proof.
  unfold compare0. destruct (c_str a) as [w|]; [|split; discriminate].
  split; intros H.
  - inversion H as [E]. apply sv_eqb_eq in E. subst; reflexivity.
  - inversion H; subst. rewrite sv_eqb_refl. reflexivity.
Qed.

Lemma connecting_first (l1 l2 : list Flight) (f : Flight) (frm : string_view) :
  Forall (passed_over frm) l1 -> c_str (from f) = Some frm -> skip f = false ->
  connecting (l1 ++ f :: l2) frm = Read (l1 ++ set_skip f :: l2, Some f).
Proof.
  intros H Hf Hs. induction H as [|g l1 (b & Hb & Hg) _ IH]; simpl.
  - apply compare0_true in Hf. rewrite Hf, Hs. reflexivity.
  - rewrite Hb, Hg, IH. reflexivity.
Qed.

Lemma connecting_none (l : list Flight) (frm : string_view) :
  Forall (passed_over frm) l -> connecting l frm = Read (l, None).
Proof.
  induction 1 as [|g l (b & Hb & Hg) _ IH]; simpl; [reflexivity|].
  rewrite Hb, Hg, IH. reflexivity.
Qed.

Lemma connecting_Some_inv (l l' : list Flight) (frm : string_view) (f : Flight) :
  connecting l frm = Read (l', Some f) ->
  exists l1 l2, l = l1 ++ f :: l2 /\ l' = l1 ++ set_skip f :: l2 /\
    Forall (passed_over frm) l1 /\ c_str (from f) = Some frm /\ skip f = false.
Proof.
  revert l'; induction l as [|g l IH]; simpl; intros l'; [discriminate|].
  destruct (compare0 frm (from g)) as [b|] eqn:Eb; [|discriminate].
  destruct (b && negb (skip g)) eqn:Eg.
  - intros H; inversion H; subst.
    apply andb_true_iff in Eg as [-> Hs]. apply negb_true_iff in Hs.
    exists [], l. repeat split; try assumption; [constructor|].
    apply compare0_true; assumption.
  - destruct (connecting l frm) as [[r' res]|] eqn:Er; [|discriminate].
    intros H; inversion H; subst.
    destruct (IH r' eq_refl) as (l1 & l2 & -> & -> & Hp & Hf & Hs).
    exists (g :: l1), l2. repeat split; try assumption.
    constructor; [exists b; auto | assumption].
Qed.

Lemma connecting_None_inv (l l' : list Flight) (frm : string_view) :
  connecting l frm = Read (l', None) -> l' = l /\ Forall (passed_over frm) l.
Proof.
  revert l'; induction l as [|g l IH]; simpl; intros l'.
  - intros H; inversion H; split; [reflexivity | constructor].
  - destruct (compare0 frm (from g)) as [b|] eqn:Eb; [|discriminate].
    destruct (b && negb (skip g)) eqn:Eg; [discriminate|].
    destruct (connecting l frm) as [[r' res]|] eqn:Er; [|discriminate].
    intros H; inversion H; subst.
    destruct (IH r' eq_refl) as [-> Hp].
    split; [reflexivity|]. constructor; [exists b; auto | assumption].
Qed.

Lemma find_connecting_Some_inv (frm anywhere : string_view) (w : Z)
      (s s' : FlightDB) :
  find_connecting frm s = Ok (Some (anywhere, w)) s' ->
  exists l1 f l2,
    db s = l1 ++ f :: l2 /\ Forall (passed_over frm) l1 /\
    c_str (from f) = Some frm /\ skip f = false /\
    c_str (to f) = Some anywhere /\ distance f = w /\
    s' = {| db := l1 ++ set_skip f :: l2; bt := bt s |}.
Proof.
  unfold find_connecting.
  destruct (connecting (db s) frm) as [[l' [f|]]|] eqn:E; try discriminate.
  - unfold bind, view_of, ret.
    destruct (c_str (to f)) as [v|] eqn:Ev; [|discriminate].
    intros H; inversion H; subst.
    destruct (connecting_Some_inv _ _ _ _ E) as (l1 & l2 & Hl & -> & Hp & Hf & Hs).
    exists l1, f, l2. repeat split; assumption.
Qed.

Lemma find_connecting_None_inv (frm : string_view) (s s' : FlightDB) :
  find_connecting frm s = Ok None s' ->
  s' = s /\ Forall (passed_over frm) (db s).
Proof.
  unfold find_connecting.
  destruct (connecting (db s) frm) as [[l' [f|]]|] eqn:E; try discriminate.
  - unfold bind, view_of, ret.
    destruct (c_str (to f)); discriminate.
  - intros H; inversion H; subst.
    destruct (connecting_None_inv _ _ _ E) as [-> Hp].
    split; [apply state_eta | assumption].
Qed.

Lemma find_if_terminated (l : list Flight) (q : city_pair) :
  Forall terminated l -> find_if l q <> Overrun.
Proof.
  induction 1 as [|g l [Hf Ht] _ IH]; simpl; [discriminate|].
  destruct q as [o d]. unfold Flight_eq, compare0.
  destruct (c_str (from g)); [|contradiction].
  destruct (sv_eqb o s); [|exact IH].
  destruct (c_str (to g)); [|contradiction].
  destruct (sv_eqb d s0); [discriminate | exact IH].
Qed.

(** ** Lookup operations *)

Lemma get_distance_first (s : FlightDB) (q : city_pair)
      (l1 l2 : list Flight) (f : Flight) :
  db s = l1 ++ f :: l2 -> Forall (differs q) l1 -> matches f q ->
  get_distance q s = Ok (Some (distance f)) s.
Proof.
  intros Hdb Hd Hm. unfold get_distance.
  rewrite Hdb, (find_if_first _ _ _ _ Hd Hm). reflexivity.
Qed.

Lemma get_distance_none (s : FlightDB) (q : city_pair) :
  Forall (differs q) (db s) -> get_distance q s = Ok None s.
Proof.
  intros H. unfold get_distance. rewrite (find_if_none _ _ H). reflexivity.
Qed.

(** ** What a search may change *)

Lemma same_edge_refl (f : Flight) : same_edge f f.
Proof. repeat split; auto. Qed.

Lemma same_edge_set_skip (f : Flight) : same_edge f (set_skip f).
Proof. repeat split; auto. Qed.

Lemma marks_only_refl (l : list Flight) : marks_only l l.
Proof. induction l; constructor; auto using same_edge_refl. Qed.

Lemma marks_only_trans (l1 l2 l3 : list Flight) :
  marks_only l1 l2 -> marks_only l2 l3 -> marks_only l1 l3.
Proof.
  intros H; revert l3; induction H as [|f g l1 l2 Hfg _ IH]; intros l3 H3;
    inversion H3; subst; constructor; [|apply IH; assumption].
  destruct Hfg as (? & ? & ? & ?), H1 as (? & ? & ? & ?).
  repeat split; try congruence; auto.
Qed.

Lemma marks_only_app (l1 l2 : list Flight) (f : Flight) :
  marks_only (l1 ++ f :: l2) (l1 ++ set_skip f :: l2).
Proof.
  unfold marks_only. induction l1 as [|g l1 IH]; simpl; constructor.
  - apply same_edge_set_skip.
  - apply marks_only_refl.
  - apply same_edge_refl.
  - exact IH.
Qed.

Create HintDb preserve.

Lemma preserves_ret {A} (a : A) : preserves (ret a).
Proof. intros s s' H; inversion H; subst. apply marks_only_refl. Qed.

Lemma preserves_bind {A B} (m : M A) (k : A -> M B) :
  preserves m -> (forall a, preserves (k a)) -> preserves (bind m k).
Proof.
  intros Hm Hk s s'. unfold bind.
  destruct (m s) as [a s1|s1| |] eqn:E; simpl; try discriminate.
  - intros H. apply marks_only_trans with (db s1).
    + apply Hm. rewrite E. reflexivity.
    + apply (Hk a). assumption.
  - intros H; inversion H; subst. apply Hm. rewrite E. reflexivity.
Qed.

Lemma preserves_get_distance (q : city_pair) : preserves (get_distance q).
Proof.
  intros s s'. unfold get_distance.
  destruct (find_if (db s) q) as [[f|]|]; simpl; intros H; inversion H; subst;
    apply marks_only_refl.
Qed.

Lemma connecting_marks_only (l l' : list Flight) (frm : string_view)
      (res : option Flight) :
  connecting l frm = Read (l', res) -> marks_only l l'.
Proof.
  destruct res as [f|]; intros H.
  - destruct (connecting_Some_inv _ _ _ _ H) as (l1 & l2 & -> & -> & _).
    apply marks_only_app.
  - destruct (connecting_None_inv _ _ _ H) as [-> _]. apply marks_only_refl.
Qed.

Lemma preserves_find_connecting (frm : string_view) :
  preserves (find_connecting frm).
Proof.
  intros s s'. unfold find_connecting.
  destruct (connecting (db s) frm) as [[l' [f|]]|] eqn:E; simpl;
    try discriminate.
  - unfold bind, view_of, ret. destruct (c_str (to f)); simpl; [|discriminate].
    intros H; inversion H; subst. simpl.
    exact (connecting_marks_only _ _ _ _ E).
  - intros H; inversion H; subst. simpl.
    exact (connecting_marks_only _ _ _ _ E).
Qed.

Lemma preserves_bt_emplace (q : city_pair) (d : Z) : preserves (bt_emplace q d).
Proof. intros s s' H; inversion H; subst. apply marks_only_refl. Qed.

Lemma preserves_bt_top : preserves bt_top.
Proof.
  intros s s'. unfold bt_top. destruct (bt s); simpl; [discriminate|].
  intros H; inversion H; subst. apply marks_only_refl.
Qed.

Lemma preserves_bt_pop : preserves bt_pop.
Proof.
  intros s s'. unfold bt_pop. destruct (bt s); simpl; [discriminate|].
  intros H; inversion H; subst. apply marks_only_refl.
Qed.

Lemma preserves_view_of (a : char_array) : preserves (view_of a).
Proof.
  intros s s'. unfold view_of. destruct (c_str a); simpl; [|discriminate].
  intros H; inversion H; subst. apply marks_only_refl.
Qed.

Lemma preserves_int_add (a b : Z) : preserves (int_add a b).
Proof.
  intros s s'. unfold int_add. destruct (in_int (a + b)); simpl;
    [|discriminate].
  intros H; inversion H; subst. apply marks_only_refl.
Qed.

Lemma preserves_value {A} (o : option A) : preserves (value o).
Proof.
  intros s s'. unfold value.
  destruct o; simpl; intros H; inversion H; subst; apply marks_only_refl.
Qed.

#[local] Hint Resolve preserves_ret preserves_get_distance
  preserves_find_connecting preserves_bt_emplace preserves_bt_top
  preserves_bt_pop preserves_view_of preserves_value preserves_int_add
  : preserve.

Ltac preserve_step :=
  match goal with
  | |- preserves (bind _ _) => apply preserves_bind; [|intro]
  | |- preserves (if ?b then _ else _) => destruct b
  | |- preserves (match ?o with Some _ => _ | None => _ end) => destruct o
  | |- preserves (let (_, _) := ?p in _) => destruct p
  | |- preserves (match ?p with pair _ _ => _ end) => destruct p
  | |- _ => solve [auto with preserve]
  end.

Lemma preserves_try_another_connection (q : city_pair) :
  preserves (try_another_connection q).
Proof. unfold try_another_connection. repeat preserve_step. Qed.

Lemma preserves_df_body (q : city_pair) : preserves (search_flight_df_body q).
Proof.
  unfold search_flight_df_body.
  repeat preserve_step; apply preserves_try_another_connection.
Qed.

Lemma preserves_bf_body (q : city_pair) : preserves (search_flight_bf_body q).
Proof. unfold search_flight_bf_body. repeat preserve_step. Qed.

Lemma preserves_search_flight_df (fuel : nat) (q : city_pair) :
  preserves (search_flight_df fuel q).
Proof.
  revert q; induction fuel as [|n IH]; intros q; simpl.
  - intros s s' H; discriminate.
  - apply preserves_bind; [apply preserves_df_body|].
    intros [|q']; [apply preserves_ret | apply IH].
Qed.

Lemma preserves_search_flight_bf (fuel : nat) (q : city_pair) :
  preserves (search_flight_bf fuel q).
Proof.
  revert q; induction fuel as [|n IH]; intros q; simpl.
  - intros s s' H; discriminate.
  - apply preserves_bind; [apply preserves_bf_body|].
    intros [|q']; [apply preserves_ret | apply IH].
Qed.

Lemma preserves_search_flight (m : SearchMethod) (q : city_pair) :
  preserves (search_flight m q).
Proof.
  intros s s'. unfold search_flight. destruct m.
  - apply preserves_search_flight_bf.
  - apply preserves_search_flight_df.
Qed.

Lemma preserves_drain (fuel : nat) (d : Z) (acc : list string_view) :
  preserves (drain fuel d acc).
Proof.
  revert d acc; induction fuel as [|n IH]; intros d acc s s'; simpl.
  - destruct (bt s); simpl; [|discriminate].
    intros H; inversion H; subst. apply marks_only_refl.
  - destruct (bt s) eqn:E; simpl.
    + intros H; inversion H; subst. apply marks_only_refl.
    + revert s s' E.
      assert (P : preserves (t <- bt_top ;; name <- view_of (from t) ;;
                             dist' <- int_add d (distance t) ;;
                             bt_pop ;;
                             drain n dist' (name :: acc))).
      { repeat preserve_step; apply IH. }
      intros s s' _. apply P.
Qed.

Lemma preserves_route (m : SearchMethod) (q : city_pair)
      (beyond : list ascii) :
  preserves (route m q beyond).
Proof.
  unfold route. apply preserves_bind; [apply preserves_search_flight|].
  intros _ s s'.
  assert (P : preserves (r <- drain (length (bt s)) 0 [] ;;
                         last <- view_of (snd q ++ beyond) ;;
                         ret {| stops := fst r; last_stop := last;
                                total := snd r |})).
  { repeat preserve_step; apply preserves_drain. }
  apply P.
Qed.

(** C8. Whatever a search does to the database, in the state it returns or
    throws in, the flights are the same ones in the same order, with the same
    origin, destination and distance; a [skip] mark that was up is still up.
    This holds of every operation the two strategies are made of, of an
    activation of each, of the whole search and of [route]. *)
Theorem search_only_raises_marks :
  (forall q s s', state_of (get_distance q s) = Some s' ->
                  marks_only (db s) (db s')) /\
  (forall frm s s', state_of (find_connecting frm s) = Some s' ->
                    marks_only (db s) (db s')) /\
  (forall q d s s', state_of (bt_emplace q d s) = Some s' ->
                    marks_only (db s) (db s')) /\
  (forall s s', state_of (bt_pop s) = Some s' -> marks_only (db s) (db s')) /\
  (forall q s s', state_of (search_flight_df_body q s) = Some s' ->
                  marks_only (db s) (db s')) /\
  (forall q s s', state_of (search_flight_bf_body q s) = Some s' ->
                  marks_only (db s) (db s')) /\
  (forall m q s s', state_of (search_flight m q s) = Some s' ->
                    marks_only (db s) (db s')) /\
  (forall m q beyond s s', state_of (route m q beyond s) = Some s' ->
                           marks_only (db s) (db s')).
Proof.
  repeat split.
  - apply preserves_get_distance.
  - apply preserves_find_connecting.
  - intros q d. apply preserves_bt_emplace.
  - apply preserves_bt_pop.
  - apply preserves_df_body.
  - apply preserves_bf_body.
  - intros m q. apply preserves_search_flight.
  - intros m q beyond. apply preserves_route.
Qed.

(** The search of [main] raises the marks of the first two flights only. *)
Lemma search_only_raises_marks_witness :
  marks_only (db main_db) (db main_db_after) /\
  map skip (db main_db_after) =
  [true; true; false; false; false; false; false; false; false; false; false].
Proof.
  split; [|reflexivity].
  apply (proj1 (proj2 (proj2 (proj2 (proj2 (proj2 (proj2
           search_only_raises_marks))))))
           DepthFirst (sv "New York", sv "Los Angeles") main_db main_db_after).
  reflexivity.
Defined.

(** ** One activation of a search, case by case *)

Lemma get_distance_state (q : city_pair) (s s' : FlightDB) (r : option Z) :
  get_distance q s = Ok r s' -> s' = s.
Proof.
  unfold get_distance.
  destruct (find_if (db s) q) as [[f|]|]; intros H; inversion H; reflexivity.
Qed.

Lemma find_connecting_bt (frm : string_view) (s s' : FlightDB)
      (r : option (string_view * Z)) :
  find_connecting frm s = Ok r s' -> bt s' = bt s.
Proof.
  destruct r as [[a w]|]; intros H.
  - destruct (find_connecting_Some_inv _ _ _ _ _ H) as (? & ? & ? & _ & _ & _ & _ & _ & _ & ->).
    reflexivity.
  - destruct (find_connecting_None_inv _ _ _ H) as [-> _]. reflexivity.
Qed.

Lemma find_connecting_cases (frm : string_view) (s : FlightDB) :
  (exists a w s1, find_connecting frm s = Ok (Some (a, w)) s1) \/
  find_connecting frm s = Ok None s \/
  find_connecting frm s = Undefined BufferOverrun.
Proof.
  unfold find_connecting.
  destruct (connecting (db s) frm) as [[l' [f|]]|] eqn:E; auto.
  - unfold bind, view_of, ret. destruct (c_str (to f)); eauto.
  - destruct (connecting_None_inv _ _ _ E) as [-> _].
    rewrite state_eta. auto.
Qed.

Lemma get_distance_cases (q : city_pair) (s : FlightDB) :
  (exists o, get_distance q s = Ok o s) \/
  get_distance q s = Undefined BufferOverrun.
Proof.
  unfold get_distance. destruct (find_if (db s) q) as [[f|]|]; eauto.
Qed.

Lemma df_body_step (q : city_pair) (s : FlightDB) :
  df_step q s (search_flight_df_body q s).
Proof.
  unfold search_flight_df_body, bind at 1.
  destruct (get_distance_cases q s) as [[o Ho]|Ho]; rewrite Ho;
    [|apply df_overrun; auto].
  destruct (0 <? value_or o 0) eqn:Ed.
  - apply Z.ltb_lt in Ed. destruct o as [w|]; simpl in Ed; [|lia].
    unfold bind, bt_emplace, ret. apply df_reached; assumption.
  - apply Z.ltb_ge in Ed. destruct q as [frm dst].
    unfold try_another_connection, bind at 1.
    destruct (find_connecting_cases frm s) as [(a & w & s1 & H)|[H|H]];
      rewrite H.
    + unfold bind, bt_emplace, ret.
      rewrite (find_connecting_bt _ _ _ _ H).
      apply (df_extend (frm, dst) s o a w s1); assumption.
    + unfold bind, bt_top, bt_pop, view_of, ret.
      destruct (bt s) as [|f r] eqn:Eb.
      * apply (df_underflow _ _ o); assumption.
      * rewrite Eb. simpl.
        destruct (c_str (from f)) as [a|] eqn:Ea;
          [|apply df_overrun; right; right; exists f, r; auto].
        destruct (c_str (to f)) as [b|] eqn:Et;
          [|apply df_overrun; right; right; exists f, r; auto].
        apply (df_backtrack (frm, dst) s o f r a b); assumption.
    + apply df_overrun; auto.
Qed.

Lemma bf_body_step (q : city_pair) (s : FlightDB) :
  bf_step q s (search_flight_bf_body q s).
Proof.
  destruct q as [frm dst]. unfold search_flight_bf_body, bind at 1.
  destruct (find_connecting_cases frm s) as [(a & w & s1 & H)|[H|H]];
    rewrite H.
  - unfold bind at 1, value. destruct (0 <? w) eqn:Ew.
    + apply Z.ltb_lt in Ew. unfold bind at 1.
      destruct (get_distance_cases (a, dst) s1) as [[o Ho]| ->]; [|constructor].
      rewrite Ho. destruct (0 <? value_or o 0) eqn:Ed.
      * apply Z.ltb_lt in Ed. destruct o as [d|]; simpl in Ed; [|lia].
        unfold bind, bt_emplace, ret. simpl.
        rewrite (find_connecting_bt _ _ _ _ H).
        apply (bf_found (frm, dst) s a w d s1); assumption.
      * apply Z.ltb_ge in Ed.
        apply (bf_again (frm, dst) s a w s1); [assumption|].
        right; exists o; auto.
    + apply Z.ltb_ge in Ew.
      apply (bf_again (frm, dst) s a w s1); auto.
  - unfold bind, value. apply bf_exhausted; assumption.
  - constructor.
Qed.

(** ** Termination of the searches *)

Lemma unmarked_mark (l1 l2 : list Flight) (f : Flight) :
  skip f = false ->
  unmarked (l1 ++ f :: l2) = S (unmarked (l1 ++ set_skip f :: l2)).
Proof.
  intros Hs. unfold unmarked. rewrite !filter_app, !length_app. simpl.
  rewrite Hs. simpl. lia.
Qed.

Lemma find_connecting_unmarked (frm anywhere : string_view) (w : Z)
      (s s1 : FlightDB) :
  find_connecting frm s = Ok (Some (anywhere, w)) s1 ->
  unmarked (db s) = S (unmarked (db s1)).
Proof.
  intros H.
  destruct (find_connecting_Some_inv _ _ _ _ _ H)
    as (l1 & f & l2 & -> & _ & _ & Hs & _ & _ & ->).
  simpl. apply unmarked_mark; assumption.
Qed.

Lemma search_flight_df_ends (fuel : nat) :
  forall (q : city_pair) (s : FlightDB),
    (2 * unmarked (db s) + length (bt s) < fuel)%nat ->
    df_ends (search_flight_df fuel q s).
Proof.
  induction fuel as [|n IH]; intros q s Hm; [lia|].
  cbn [search_flight_df]. unfold bind at 1.
  pose proof (df_body_step q s) as H.
  inversion H as [w Hg Hw E | o a w s1 Hg Hd Hf E | o f r a b Hg Hd Hf Hb Ha Ht E
                 | o Hg Hd Hf Hb E | E]; clear H.
  - simpl. discriminate.
  - apply IH. simpl. rewrite (find_connecting_unmarked _ _ _ _ _ Hf) in Hm. lia.
  - apply IH. simpl. rewrite Hb in Hm. simpl in Hm. lia.
  - exact I.
  - exact I.
Qed.

Lemma search_flight_bf_ends (fuel : nat) :
  forall (q : city_pair) (s : FlightDB),
    (unmarked (db s) < fuel)%nat ->
    bf_ends q s (search_flight_bf fuel q s).
Proof.
  induction fuel as [|n IH]; intros q s Hm; [lia|].
  cbn [search_flight_bf]. unfold bind at 1.
  pose proof (bf_body_step q s) as H.
  inversion H as [a w d s1 Hf Hw Hg Hd E | a w s1 Hf Hc E | Hf E | E]; clear H.
  - simpl. exists a, w, d. auto.
  - pose proof (find_connecting_unmarked _ _ _ _ _ Hf) as Hu.
    pose proof (find_connecting_bt _ _ _ _ Hf) as Hb.
    specialize (IH q s1 ltac:(lia)).
    destruct (search_flight_bf n q s1); simpl in *; try rewrite <- Hb; auto.
  - simpl. split; [|reflexivity].
    apply (find_connecting_None_inv _ _ _ Hf).
  - reflexivity.
Qed.

(** The recursion bounds of [search_flight] are never reached: both
    strategies end, by a return, by [bad_optional_access] or in undefined
    behaviour. *)
Lemma search_flight_total (m : SearchMethod) (q : city_pair) (s : FlightDB) :
  search_flight m q s <> OutOfFuel.
Proof.
  unfold search_flight. destruct m.
  - pose proof (search_flight_bf_ends (S (unmarked (db s))) q s
                  (Nat.lt_succ_diag_r _)) as H.
    intros E. rewrite E in H. exact H.
  - pose proof (search_flight_df_ends
                  (S (2 * unmarked (db s) + length (bt s))) q s
                  (Nat.lt_succ_diag_r _)) as H.
    intros E. rewrite E in H. exact H.
Qed.

(** A depth-first search has no way to report that no route was found: it
    returns with a frame on the stack or not at all. *)
Lemma search_flight_df_no_report (q : city_pair) (s : FlightDB) :
  df_ends (search_flight DepthFirst q s).
Proof. apply search_flight_df_ends. lia. Qed.

(** A lookahead search returns only with a route; when the flights out of
    the origin are used up, it throws. *)
Lemma search_flight_bf_no_report (q : city_pair) (s : FlightDB) :
  bf_ends q s (search_flight BreadthFirst q s).
Proof. apply search_flight_bf_ends. lia. Qed.

(** ** What a depth-first search leaves on the stack *)

Lemma marks_only_In (l l' : list Flight) (g : Flight) :
  marks_only l l' -> In g l -> exists g', In g' l' /\ same_edge g g'.
Proof.
  induction 1 as [|a b l l' Hab _ IH]; simpl; [contradiction|].
  intros [->|Hin].
  - exists b; auto.
  - destruct (IH Hin) as (g' & Hg' & Hs). exists g'; auto.
Qed.

Lemma marks_only_In_rev (l l' : list Flight) (g' : Flight) :
  marks_only l l' -> In g' l' -> exists g, In g l /\ same_edge g g'.
Proof.
  induction 1 as [|a b l l' Hab _ IH]; simpl; [contradiction|].
  intros [->|Hin].
  - exists a; auto.
  - destruct (IH Hin) as (g & Hg & Hs). exists g; auto.
Qed.

Lemma flight_between_marks (l l' : list Flight) (u v : string_view) (w : Z) :
  marks_only l l' -> flight_between l u v w <-> flight_between l' u v w.
Proof.
  intros Hm; split; intros (g & Hin & Hf & Ht & Hd).
  - destruct (marks_only_In _ _ _ Hm Hin) as (g' & Hin' & Ef & Et & Ed & _).
    exists g'. rewrite <- Ef, <- Et, <- Ed. auto.
  - destruct (marks_only_In_rev _ _ _ Hm Hin) as (g' & Hin' & Ef & Et & Ed & _).
    exists g'. rewrite Ef, Et, Ed. auto.
Qed.

Lemma connected_marks (l l' : list Flight) (u v : string_view) :
  marks_only l l' -> connected l u v <-> connected l' u v.
Proof.
  intros Hm; split; induction 1 as [u v w H|u x v w H _ IH].
  - apply connected_direct with w. apply (flight_between_marks _ _ _ _ _ Hm); auto.
  - apply connected_via with x w; [|exact IH].
    apply (flight_between_marks _ _ _ _ _ Hm); auto.
  - apply connected_direct with w. apply (flight_between_marks _ _ _ _ _ Hm); auto.
  - apply connected_via with x w; [|exact IH].
    apply (flight_between_marks _ _ _ _ _ Hm); auto.
Qed.

Lemma chain_marks (l l' : list Flight) (o dst cur : string_view)
      (st : list Flight) :
  marks_only l l' -> chain l o dst cur st -> chain l' o dst cur st.
Proof.
  intros Hm; induction 1 as [|u cur w r _ IH Hf Hu]; constructor; auto.
  apply (flight_between_marks _ _ _ _ _ Hm); assumption.
Qed.

Lemma well_formed_marks (l l' : list Flight) :
  marks_only l l' -> Forall well_formed l -> Forall well_formed l'.
Proof.
  induction 1 as [|a b l l' (Ef & Et & _ & _) _ IH]; intros H;
    inversion H as [|? ? (Hf & Ht & Hc1 & Hc2) Hl]; subst; constructor; auto.
  unfold well_formed, terminated. rewrite <- Ef, <- Et. auto.
Qed.

Lemma Flight_new_well_formed (o d : string_view) (w : Z) :
  fits o -> fits d -> well_formed (Flight_new (o, d) w).
Proof.
  intros Ho Hd. unfold well_formed, terminated. simpl.
  rewrite !length_copy, (c_str_copy _ Ho), (c_str_copy _ Hd).
  repeat split; discriminate.
Qed.

(** Appending under names that fit keeps the flights well formed. *)
Lemma append_flight_well_formed (o d : string_view) (w : Z)
      (s s' : FlightDB) :
  fits o -> fits d -> Forall well_formed (db s) ->
  append_flight (o, d) w s = Ok tt s' -> Forall well_formed (db s').
Proof.
  intros Ho Hd Hwf E. inversion E; subst. simpl.
  apply Forall_app. split; [assumption|].
  constructor; [|constructor]. apply Flight_new_well_formed; assumption.
Qed.

Lemma main_db_well_formed : Forall well_formed (db main_db).
Proof.
  repeat constructor; try (vm_compute; discriminate).
Qed.

Lemma well_formed_terminated (l : list Flight) :
  Forall well_formed l -> Forall terminated l.
Proof. apply Forall_impl. intros f (_ & _ & H); exact H. Qed.

Lemma connecting_terminated (l : list Flight) (frm : string_view) :
  Forall terminated l -> connecting l frm <> Overrun.
Proof.
  induction 1 as [|g l [Hf Ht] _ IH]; simpl; [discriminate|].
  unfold compare0. destruct (c_str (from g)); [|contradiction].
  destruct (sv_eqb frm s && negb (skip g)); [discriminate|].
  destruct (connecting l frm) as [[r' res]|]; [discriminate | contradiction].
Qed.

Lemma get_distance_defined (q : city_pair) (s : FlightDB) :
  Forall terminated (db s) -> get_distance q s <> Undefined BufferOverrun.
Proof.
  intros H. unfold get_distance.
  pose proof (find_if_terminated (db s) q H) as Hn.
  destruct (find_if (db s) q) as [[f|]|]; try discriminate. contradiction.
Qed.

Lemma find_connecting_defined (frm : string_view) (s : FlightDB) :
  Forall terminated (db s) -> find_connecting frm s <> Undefined BufferOverrun.
Proof.
  intros H. unfold find_connecting.
  pose proof (connecting_terminated (db s) frm H) as Hn.
  destruct (connecting (db s) frm) as [[l' [f|]]|] eqn:E;
    try discriminate; [|contradiction].
  destruct (connecting_Some_inv _ _ _ _ E) as (l1 & l2 & Hl & _).
  rewrite Hl in H. apply Forall_elt in H. destruct H as [_ Ht].
  unfold bind, view_of, ret. destruct (c_str (to f)); [discriminate|contradiction].
Qed.

Lemma get_distance_flight (u v : string_view) (w : Z) (s s' : FlightDB) :
  get_distance (u, v) s = Ok (Some w) s' -> flight_between (db s) u v w.
Proof.
  unfold get_distance.
  destruct (find_if (db s) (u, v)) as [[f|]|] eqn:E; try discriminate.
  intros H; inversion H; subst.
  destruct (find_if_Some_inv _ _ _ E) as (l1 & l2 & Hl & _ & Hf & Ht).
  exists f. rewrite Hl. split; [apply in_elt|]. auto.
Qed.

Lemma search_flight_df_chain (o dst : string_view) (fuel : nat) :
  forall (cur : string_view) (s : FlightDB),
    Forall well_formed (db s) -> fits cur -> fits dst ->
    chain (db s) o dst cur (bt s) ->
    (2 * unmarked (db s) + length (bt s) < fuel)%nat ->
    df_found o dst (search_flight_df fuel (cur, dst) s).
Proof.
  induction fuel as [|n IH]; intros cur s Hwf Hcur Hdst Hch Hm; [lia|].
  cbn [search_flight_df]. unfold bind at 1.
  pose proof (df_body_step (cur, dst) s) as H.
  inversion H as [w Hg Hw E | oo a w s1 Hg Hd Hf E
                 | oo f r a b Hg Hd Hf Hb Ha Ht E
                 | oo Hg Hd Hf Hb E | Hov E]; clear H.
  - simpl. exists cur, w, (bt s). split; [reflexivity|]. split; [assumption|].
    constructor; auto. apply (get_distance_flight _ _ _ _ _ Hg).
  - simpl in Hf.
    assert (Hmo : marks_only (db s) (db s1))
      by (apply (preserves_find_connecting cur); rewrite Hf; reflexivity).
    destruct (find_connecting_Some_inv _ _ _ _ _ Hf)
      as (l1 & g & l2 & Hl & _ & Hgf & _ & Hgt & Hgd & _).
    assert (Hin : In g (db s)) by (rewrite Hl; apply in_elt).
    assert (Hwg : well_formed g)
      by (apply (proj1 (Forall_forall _ _) Hwf); exact Hin).
    apply IH; simpl.
    + apply (well_formed_marks _ _ Hmo Hwf).
    + destruct Hwg as (_ & Hlt & _). apply (c_str_fits _ _ Hlt Hgt).
    + assumption.
    + constructor; [apply (chain_marks _ _ _ _ _ _ Hmo Hch)| |assumption].
      apply (flight_between_marks _ _ _ _ _ Hmo). exists g. auto.
    + rewrite (find_connecting_unmarked _ _ _ _ _ Hf) in Hm. lia.
  - rewrite Hb in Hch. inversion Hch as [|u c w' r' Hr Hfl Hu]; subst.
    simpl in Ha, Ht. rewrite (c_str_copy _ Hu) in Ha.
    rewrite (c_str_copy _ Hdst) in Ht. inversion Ha; inversion Ht; subst.
    apply IH; simpl; auto. rewrite Hb in Hm. simpl in Hm. lia.
  - reflexivity.
  - exfalso. simpl in Hov. destruct Hov as [Ho|[Ho|(f & r & Hb & Ho)]].
    + exact (get_distance_defined _ _ (well_formed_terminated _ Hwf) Ho).
    + exact (find_connecting_defined _ _ (well_formed_terminated _ Hwf) Ho).
    + rewrite Hb in Hch. inversion Hch as [|u c w' r' Hr Hfl Hu]; subst.
      simpl in Ho. rewrite (c_str_copy _ Hu), (c_str_copy _ Hdst) in Ho.
      destruct Ho; discriminate.
Qed.

Lemma chain_connected (l : list Flight) (o dst cur x : string_view)
      (st : list Flight) :
  chain l o dst cur st -> connected l cur x -> connected l o x.
Proof.
  induction 1 as [|u cur w r _ IH Hf _]; intros Hc; [assumption|].
  apply IH. apply connected_via with cur w; assumption.
Qed.

Lemma chain_top_connected (l : list Flight) (o dst cur : string_view)
      (st : list Flight) :
  chain l o dst cur st -> st <> [] -> connected l o cur.
Proof.
  intros H Hne. inversion H as [|u c w r Hr Hf _]; subst; [contradiction|].
  inversion Hr as [|u' c' w' r' Hr' Hf' _]; subst.
  - apply connected_direct with w; assumption.
  - apply (chain_connected _ _ _ _ _ _ Hr).
    apply connected_direct with w; assumption.
Qed.

(** A depth-first search that returns has found flights that lead from the
    origin to the destination. *)
Lemma search_flight_df_sound (o dst : string_view) (s s' : FlightDB) :
  Forall well_formed (db s) -> fits o -> fits dst -> bt s = [] ->
  search_flight DepthFirst (o, dst) s = Ok tt s' ->
  chain (db s') o dst dst (bt s') /\ bt s' <> [] /\ connected (db s) o dst.
Proof.
  intros Hwf Ho Hd Hb E.
  assert (Hmo : marks_only (db s) (db s'))
    by (apply (preserves_search_flight DepthFirst (o, dst)); rewrite E;
        reflexivity).
  unfold search_flight in E.
  assert (Hc : chain (db s) o dst o (bt s)) by (rewrite Hb; constructor).
  pose proof (search_flight_df_chain o dst
                (S (2 * unmarked (db s) + length (bt s))) o s Hwf Ho Hd Hc
                (Nat.lt_succ_diag_r _)) as H.
  rewrite E in H. destruct H as (u & w & r & Hbt & Hw & Hch).
  assert (Hne : bt s' <> []) by (rewrite Hbt; discriminate).
  split; [assumption|]. split; [assumption|].
  apply (connected_marks _ _ _ _ Hmo).
  apply (chain_top_connected _ _ _ _ _ Hch Hne).
Qed.

(** With no flights leading from the origin to the destination, a
    depth-first search on well-formed flights and names that fit ends in one
    way only: it pops the empty stack. *)
Lemma search_flight_df_unreachable (o dst : string_view) (s : FlightDB) :
  Forall well_formed (db s) -> fits o -> fits dst -> bt s = [] ->
  ~ connected (db s) o dst ->
  search_flight DepthFirst (o, dst) s = Undefined StackUnderflow.
Proof.
  intros Hwf Ho Hd Hb Hn.
  pose proof (search_flight_df_sound o dst s) as Hs.
  assert (Hc : chain (db s) o dst o (bt s)) by (rewrite Hb; constructor).
  pose proof (search_flight_df_chain o dst
                (S (2 * unmarked (db s) + length (bt s))) o s Hwf Ho Hd Hc
                (Nat.lt_succ_diag_r _)) as H.
  unfold search_flight in *.
  destruct (search_flight_df _ (o, dst) s) as [[] s'| | u|]; simpl in H;
    try contradiction.
  - destruct (Hs s' Hwf Ho Hd Hb eq_refl) as (_ & _ & Hx). contradiction.
  - rewrite H. reflexivity.
Qed.

(** ** A depth-first search that pops the empty stack has looked everywhere *)

Lemma marks_only_clear_skip (l l' : list Flight) :
  marks_only l l' -> map clear_skip l' = map clear_skip l.
Proof.
  induction 1 as [|f g l l' (Ef & Et & Ed & _) _ IH]; simpl; [reflexivity|].
  rewrite IH. f_equal. unfold clear_skip. rewrite Ef, Et, Ed. reflexivity.
Qed.

Lemma no_direct_clear (l l' : list Flight) (dst v : string_view) :
  map clear_skip l' = map clear_skip l -> no_direct l dst v ->
  no_direct l' dst v.
Proof.
  intros Hm. unfold no_direct.
  pose proof (find_if_marks l l' (v, dst) Hm) as H.
  destruct (find_if l (v, dst)) as [[f|]|], (find_if l' (v, dst)) as [[f'|]|];
    try contradiction; auto.
  rewrite H. auto.
Qed.

Lemma no_direct_marks (l l' : list Flight) (dst v : string_view) :
  marks_only l l' -> no_direct l dst v <-> no_direct l' dst v.
Proof.
  intros Hm. pose proof (marks_only_clear_skip _ _ Hm) as Hc.
  split; apply no_direct_clear; [exact Hc | symmetry; exact Hc].
Qed.

Lemma exhausted_marks (l l' : list Flight) (v : string_view) :
  marks_only l l' -> exhausted l v -> exhausted l' v.
Proof.
  unfold exhausted.
  induction 1 as [|f g l l' (Ef & _ & _ & Es) _ IH]; intros H;
    inversion H; subst; constructor; auto.
  rewrite <- Ef. auto.
Qed.

Lemma get_distance_no_direct (cur dst : string_view) (o : option Z)
      (s : FlightDB) :
  get_distance (cur, dst) s = Ok o s -> value_or o 0 <= 0 ->
  no_direct (db s) dst cur.
Proof.
  unfold get_distance, no_direct.
  destruct (find_if (db s) (cur, dst)) as [[f|]|]; intros H Hd;
    inversion H; subst; simpl in Hd; auto.
Qed.

Lemma passed_over_exhausted (l : list Flight) (v : string_view) :
  Forall (passed_over v) l -> exhausted l v.
Proof.
  unfold exhausted. apply Forall_impl. intros g (b & Hb & Hs) Hf.
  apply compare0_true in Hf. rewrite Hf in Hb. inversion Hb; subst.
  simpl in Hs. apply negb_false_iff in Hs. exact Hs.
Qed.

(** Once every place seen is exhausted, whatever is connected to the origin
    has been seen. *)
Lemma connected_seen (l : list Flight) (o u x : string_view) :
  (forall v, seen l o v -> exhausted l v) ->
  seen l o u -> connected l u x -> seen l o x.
Proof.
  intros Hex Hu Hc. induction Hc as [u x w (g & Hin & Hf & Ht & _)
                                    |u y x w (g & Hin & Hf & Ht & _) _ IH].
  - right. exists g. split; [assumption|]. split; [|assumption].
    apply (proj1 (Forall_forall _ _) (Hex u Hu) g Hin Hf).
  - apply IH. right. exists g. split; [assumption|]. split; [|assumption].
    apply (proj1 (Forall_forall _ _) (Hex u Hu) g Hin Hf).
Qed.

Lemma search_flight_df_exhaustive (o dst : string_view) (fuel : nat) :
  forall (cur : string_view) (s : FlightDB),
    Forall well_formed (db s) -> fits cur -> fits dst ->
    chain (db s) o dst cur (bt s) ->
    searched (db s) o dst cur (bt s) ->
    (2 * unmarked (db s) + length (bt s) < fuel)%nat ->
    search_flight_df fuel (cur, dst) s = Undefined StackUnderflow ->
    looked_everywhere (db s) o dst.
Proof.
  induction fuel as [|n IH]; intros cur s Hwf Hcur Hdst Hch Hinv Hm; [lia|].
  cbn [search_flight_df]. unfold bind at 1.
  pose proof (df_body_step (cur, dst) s) as H.
  inversion H as [w Hg Hw E | oo a w s1 Hg Hd Hf E
                 | oo f r a b Hg Hd Hf Hb Ha Ht E
                 | oo Hg Hd Hf Hb E | Hov E]; clear H.
  - simpl. discriminate.
  - simpl in Hf. intros Hout.
    assert (Hmo : marks_only (db s) (db s1))
      by (apply (preserves_find_connecting cur); rewrite Hf; reflexivity).
    destruct (find_connecting_Some_inv _ _ _ _ _ Hf)
      as (l1 & g & l2 & Hl & _ & Hgf & Hgs & Hgt & Hgd & Hs1).
    assert (Hin : In g (db s)) by (rewrite Hl; apply in_elt).
    assert (Hwg : well_formed g)
      by (apply (proj1 (Forall_forall _ _) Hwf); exact Hin).
    assert (Hnd : no_direct (db s1) dst cur)
      by (apply (no_direct_marks _ _ _ _ Hmo);
          apply (get_distance_no_direct _ _ _ _ Hg Hd)).
    assert (Hon : on_stack (Flight_new (cur, dst) w :: bt s) cur).
    { exists (Flight_new (cur, dst) w). split; [left; reflexivity|].
      simpl. apply c_str_copy; assumption. }
    assert (Hgoal : looked_everywhere (db s1) o dst).
    { apply (IH a {| db := db s1; bt := Flight_new (cur, dst) w :: bt s |});
        simpl; auto.
      - apply (well_formed_marks _ _ Hmo Hwf).
      - destruct Hwg as (_ & Hlt & _). apply (c_str_fits _ _ Hlt Hgt).
      - constructor; [apply (chain_marks _ _ _ _ _ _ Hmo Hch)| |assumption].
        apply (flight_between_marks _ _ _ _ _ Hmo). exists g. auto.
      - intros v Hv.
        assert (Hold : v = a \/ seen (db s) o v).
        { destruct Hv as [->|(g' & Hin' & Hs' & Ht')]; [right; left; reflexivity|].
          rewrite Hs1 in Hin'. simpl in Hin'.
          apply in_app_or in Hin'. destruct Hin' as [Hin'|[<-|Hin']].
          - right; right. exists g'. rewrite Hl.
            split; [apply in_or_app; auto | auto].
          - left. simpl in Ht'. rewrite Hgt in Ht'. inversion Ht'; reflexivity.
          - right; right. exists g'. rewrite Hl.
            split; [apply in_or_app; right; right; assumption | auto]. }
        destruct Hold as [->|Hold]; [left; reflexivity|].
        destruct (Hinv v Hold) as [->|(Hn & Hse)].
        + right. split; [exact Hnd | left; exact Hon].
        + right. split; [apply (no_direct_marks _ _ _ _ Hmo); exact Hn|].
          destruct Hse as [(f' & Hf' & Hc')|He].
          * left. exists f'. split; [right; assumption | assumption].
          * right. apply (exhausted_marks _ _ _ Hmo He).
      - rewrite (find_connecting_unmarked _ _ _ _ _ Hf) in Hm. lia. }
    intros x Hx. apply (no_direct_marks _ _ _ _ Hmo). apply Hgoal.
    destruct Hx as [->|Hx]; [left; reflexivity | right].
    apply (connected_marks _ _ _ _ Hmo); assumption.
  - rewrite Hb in Hch. inversion Hch as [|u c w' r' Hr Hfl Hu]; subst.
    simpl in Ha, Ht. rewrite (c_str_copy _ Hu) in Ha.
    rewrite (c_str_copy _ Hdst) in Ht. inversion Ha; inversion Ht; subst.
    match goal with
    | |- search_flight_df _ (?c, _) ?st = _ -> _ => apply (IH c st)
    end; simpl; auto.
    + intros v Hv.
      assert (Hex : exhausted (db s) cur)
        by (apply passed_over_exhausted;
            apply (find_connecting_None_inv _ _ _ Hf)).
      destruct (Hinv v Hv) as [->|(Hn & Hse)].
      * right. split; [apply (get_distance_no_direct _ _ _ _ Hg Hd)|].
        right; exact Hex.
      * destruct Hse as [(f' & Hf' & Hc')|He].
        -- rewrite Hb in Hf'. destruct Hf' as [<-|Hf'].
           ++ left. simpl in Hc'. rewrite (c_str_copy _ Hu) in Hc'.
              inversion Hc'; reflexivity.
           ++ right. split; [exact Hn|]. left. exists f'. auto.
        -- right. split; [exact Hn | right; exact He].
    + rewrite Hb in Hm. simpl in Hm. lia.
  - intros _. rewrite Hb in Hch. inversion Hch; subst.
    assert (Hex : exhausted (db s) cur)
      by (apply passed_over_exhausted;
          apply (find_connecting_None_inv _ _ _ Hf)).
    assert (Hnd : no_direct (db s) dst cur)
      by apply (get_distance_no_direct _ _ _ _ Hg Hd).
    assert (Hall : forall v, seen (db s) cur v ->
                             no_direct (db s) dst v /\ exhausted (db s) v).
    { intros v Hv. destruct (Hinv v Hv) as [->|(Hn & Hse)]; [auto|].
      split; [exact Hn|]. destruct Hse as [(f' & Hf' & _)|He]; [|exact He].
      rewrite Hb in Hf'. contradiction. }
    intros x Hx. apply Hall. destruct Hx as [->|Hx]; [left; reflexivity|].
    apply (connected_seen (db s) cur cur x); [|left; reflexivity | exact Hx].
    intros v Hv. apply Hall; assumption.
  - discriminate.
Qed.

(** On well-formed flights, none marked, with names that fit and an empty
    stack: when some place [x], the origin or a place connected to it, has a
    first exact flight to the destination of positive distance, the
    depth-first search returns. *)
Lemma search_flight_df_complete (o dst x : string_view) (w : Z)
      (s : FlightDB) :
  Forall well_formed (db s) -> fresh (db s) -> fits o -> fits dst ->
  bt s = [] ->
  x = o \/ connected (db s) o x ->
  get_distance (x, dst) s = Ok (Some w) s -> 0 < w ->
  exists s', search_flight DepthFirst (o, dst) s = Ok tt s'.
Proof.
  intros Hwf Hfr Ho Hd Hb Hx Hg Hw.
  assert (Hc : chain (db s) o dst o (bt s)) by (rewrite Hb; constructor).
  assert (Hinv : searched (db s) o dst o (bt s)).
  { intros v [->|(g & Hin & Hs & _)]; [left; reflexivity|].
    rewrite (proj1 (Forall_forall _ _) Hfr g Hin) in Hs. discriminate. }
  pose proof (search_flight_df_chain o dst
                (S (2 * unmarked (db s) + length (bt s))) o s Hwf Ho Hd Hc
                (Nat.lt_succ_diag_r _)) as H.
  pose proof (search_flight_df_exhaustive o dst
                (S (2 * unmarked (db s) + length (bt s))) o s Hwf Ho Hd Hc
                Hinv (Nat.lt_succ_diag_r _)) as He.
  unfold search_flight.
  destruct (search_flight_df _ (o, dst) s) as [[] s'| | u|]; simpl in H;
    try contradiction.
  - exists s'. reflexivity.
  - subst u. specialize (He eq_refl x Hx). unfold no_direct in He.
    unfold get_distance in Hg.
    destruct (find_if (db s) (x, dst)) as [[f|]|]; inversion Hg; subst. lia.
Qed.

(** ** What [route] prints after a depth-first search *)

Lemma in_int_iff (z : Z) : in_int z = true <-> INT_MIN <= z <= INT_MAX.
Proof. unfold in_int. rewrite andb_true_iff, !Z.leb_le. tauto. Qed.

Lemma sums_in_int_total (frames : list Flight) :
  forall d, sums_in_int d frames = true -> frames <> [] ->
            in_int (d + sum_distance frames) = true.
Proof.
  induction frames as [|f r IH]; intros d H Hne; [contradiction|].
  simpl in H. apply andb_true_iff in H as [Hf Hr]. simpl.
  destruct r as [|g r].
  - simpl. replace (d + (distance f + 0)) with (d + distance f) by lia.
    exact Hf.
  - replace (d + (distance f + sum_distance (g :: r)))
      with (d + distance f + sum_distance (g :: r)) by lia.
    apply IH; [assumption | discriminate].
Qed.

(** The loop of [route] on frames that can be read and whose sums are
    [int]s: it prints the frames' origins from the top of the stack down,
    adds up their distances and leaves the stack empty. *)
Lemma drain_frames (frames : list Flight) :
  forall (s : FlightDB) (d : Z) (acc : list string_view),
    bt s = frames -> Forall (fun f => c_str (from f) <> None) frames ->
    sums_in_int d frames = true ->
    drain (length frames) d acc s =
    Ok (rev acc ++ map name_of frames, d + sum_distance frames)
       {| db := db s; bt := [] |}.
Proof.
  induction frames as [|f r IH]; intros s d acc Hb Hf Hs.
  - simpl. rewrite Hb, app_nil_r, <- Hb, state_eta, Z.add_0_r. reflexivity.
  - inversion Hf as [|? ? Hc Hr]; subst. cbn [length drain]. rewrite Hb.
    simpl in Hs. apply andb_true_iff in Hs as [Hi Hs].
    unfold bind at 1, bt_top. rewrite Hb.
    unfold bind at 1, view_of. destruct (c_str (from f)) as [v|] eqn:Ev;
      [|contradiction].
    unfold bind at 1, int_add. rewrite Hi.
    unfold bind, bt_pop. rewrite Hb.
    rewrite (IH {| db := db s; bt := r |} _ _ eq_refl Hr Hs). simpl.
    unfold name_of. rewrite Ev, <- app_assoc.
    replace (d + distance f + sum_distance r)
      with (d + (distance f + sum_distance r)) by lia.
    reflexivity.
Qed.

(** When the loop returns, the frames could be read and the sums were
    [int]s. *)
Lemma drain_Ok_inv (frames : list Flight) :
  forall (s s' : FlightDB) (d : Z) (acc : list string_view)
         (r : list string_view * Z),
    bt s = frames -> drain (length frames) d acc s = Ok r s' ->
    Forall (fun f => c_str (from f) <> None) frames /\
    sums_in_int d frames = true.
Proof.
  induction frames as [|f fr IH]; intros s s' d acc r Hb;
    [split; [constructor | reflexivity]|].
  cbn [length drain]. rewrite Hb.
  unfold bind at 1, bt_top. rewrite Hb.
  unfold bind at 1, view_of. destruct (c_str (from f)) as [v|] eqn:Ev;
    [|discriminate].
  unfold bind at 1, int_add.
  destruct (in_int (d + distance f)) eqn:Hi; [|discriminate].
  unfold bind at 1, bt_pop. rewrite Hb. intros E.
  destruct (IH {| db := db s; bt := fr |} s' _ _ r eq_refl E) as [Hf Hs].
  split.
  - constructor; [rewrite Ev; discriminate | assumption].
  - simpl. rewrite Hi, Hs. reflexivity.
Qed.

(** On frames that can be read the loop never reads past an array. *)
Lemma drain_no_overrun (frames : list Flight) :
  forall (s : FlightDB) (d : Z) (acc : list string_view),
    bt s = frames -> Forall (fun f => c_str (from f) <> None) frames ->
    drain (length frames) d acc s <> Undefined BufferOverrun.
Proof.
  induction frames as [|f r IH]; intros s d acc Hb Hf.
  - simpl. rewrite Hb. discriminate.
  - inversion Hf as [|? ? Hc Hr]; subst. cbn [length drain]. rewrite Hb.
    unfold bind at 1, bt_top. rewrite Hb.
    unfold bind at 1, view_of. destruct (c_str (from f)) as [v|] eqn:Ev;
      [|contradiction].
    unfold bind at 1, int_add.
    destruct (in_int (d + distance f)); [|discriminate].
    unfold bind at 1, bt_pop. rewrite Hb.
    apply (IH {| db := db s; bt := r |} _ _ eq_refl Hr).
Qed.

Lemma chain_frames_terminated (l : list Flight) (o dst cur : string_view)
      (st : list Flight) :
  chain l o dst cur st -> Forall (fun f => c_str (from f) <> None) st.
Proof.
  induction 1 as [|u cur w r _ IH _ Hu]; constructor; [|assumption].
  simpl. rewrite (c_str_copy _ Hu). discriminate.
Qed.

Lemma walk_snoc (l : list Flight) (names : list string_view) (ws : list Z)
      (u v : string_view) (w : Z) :
  walk l (names ++ [u]) ws -> flight_between l u v w ->
  walk l ((names ++ [u]) ++ [v]) (ws ++ [w]).
Proof.
  revert ws; induction names as [|a names IH]; intros ws H Hf.
  - inversion H; subst. simpl. apply walk_step; [assumption | constructor].
  - destruct names as [|b names].
    + inversion H as [|? ? ? ? ? Hab Hr]; subst. inversion Hr; subst.
      simpl. apply walk_step; [assumption|].
      apply walk_step; [assumption | constructor].
    + inversion H as [|? ? ? ? ws' Hab Hr]; subst.
      simpl. apply walk_step; [assumption|]. apply (IH ws' Hr Hf).
Qed.

Lemma name_of_frame (u t : string_view) (b : bool) (w : Z) :
  fits u ->
  name_of {| from := copy u; to := t; skip := b; distance := w |} = u.
Proof. intros Hu. unfold name_of. cbn [from]. rewrite (c_str_copy _ Hu). reflexivity. Qed.

(** The frames of a chain, read from the bottom of the stack, name a walk
    from the origin to the current place. *)
Lemma chain_walk (l : list Flight) (o dst cur : string_view)
      (st : list Flight) :
  chain l o dst cur st ->
  walk l (rev (map name_of st) ++ [cur]) (rev (map distance st)) /\
  hd_error (rev (map name_of st) ++ [cur]) = Some o.
Proof.
  induction 1 as [|u cur w r _ [IHw IHh] Hf Hu].
  - split; [constructor | reflexivity].
  - cbn [map rev distance]. rewrite (name_of_frame _ _ _ _ Hu).
    split.
    + apply walk_snoc; assumption.
    + destruct (rev (map name_of r) ++ [u]) eqn:E; [|exact IHh].
      destruct (rev (map name_of r)); discriminate.
Qed.

Lemma sum_rev (ws : list Z) :
  fold_right Z.add 0 (rev ws) = fold_right Z.add 0 ws.
Proof.
  induction ws as [|w ws IH]; simpl; [reflexivity|].
  rewrite fold_right_app. simpl.
  rewrite <- IH. generalize (rev ws). intros l.
  induction l as [|x l IHl]; simpl; lia.
Qed.

Lemma sum_distance_map (st : list Flight) :
  sum_distance st = fold_right Z.add 0 (map distance st).
Proof. induction st as [|f r IH]; simpl; [reflexivity|]. rewrite <- IH. reflexivity. Qed.

(** What the last [printf] of [route] prints for a destination that fits
    and is followed by a NUL in its buffer: the destination. *)
Lemma c_str_terminated_view (v beyond : list ascii) :
  fits v -> c_str (v ++ NUL :: beyond) = Some v.
Proof. intros [_ H]. apply c_str_app_NUL; assumption. Qed.

(** When [route<DepthFirst>] returns on well-formed flights, the names it
    printed, read from the last to the first and followed by the
    destination, are a walk along flights from the origin to the
    destination, and the distance printed is the sum of their distances.
    The walk is printed last flight first.  The last name printed is the C
    string read at the destination view. *)
Lemma route_df_prints_walk_reversed (o dst : string_view)
      (beyond : list ascii) (s s' : FlightDB) (p : printed) :
  Forall well_formed (db s) -> fits o -> fits dst -> bt s = [] ->
  route DepthFirst (o, dst) beyond s = Ok p s' ->
  exists ws,
    walk (db s) (rev (stops p) ++ [dst]) ws /\
    hd_error (rev (stops p) ++ [dst]) = Some o /\
    stops p <> [] /\
    c_str (dst ++ beyond) = Some (last_stop p) /\
    total p = fold_right Z.add 0 ws /\
    INT_MIN <= total p <= INT_MAX /\
    bt s' = [].
Proof.
  intros Hwf Ho Hd Hb E. unfold route, bind at 1 in E.
  destruct (search_flight DepthFirst (o, dst) s) as [[] s1| | |] eqn:Es;
    try discriminate.
  destruct (search_flight_df_sound o dst s s1 Hwf Ho Hd Hb Es)
    as (Hch & Hne & _).
  assert (Hmo : marks_only (db s) (db s1))
    by (apply (preserves_search_flight DepthFirst (o, dst)); rewrite Es;
        reflexivity).
  unfold bind at 1 in E.
  destruct (drain (length (bt s1)) 0 [] s1) as [r s2| | |] eqn:Ed;
    try discriminate.
  destruct (drain_Ok_inv (bt s1) s1 s2 0 [] r eq_refl Ed) as [Hf Hs].
  rewrite (drain_frames (bt s1) s1 0 [] eq_refl Hf Hs) in Ed.
  inversion Ed; subst r s2. clear Ed.
  unfold bind at 1, view_of in E. cbn [snd] in E.
  destruct (c_str (dst ++ beyond)) as [last|] eqn:El; [|discriminate].
  unfold ret in E. inversion E; subst. simpl.
  destruct (chain_walk _ _ _ _ _ Hch) as [Hw Hh].
  exists (rev (map distance (bt s1))).
  split; [|split; [assumption|split; [|split; [reflexivity|split; [|split;
    [|reflexivity]]]]]].
  - clear - Hw Hmo. revert Hw. generalize (rev (map name_of (bt s1)) ++ [dst]).
    generalize (rev (map distance (bt s1))). intros ws names Hw.
    induction Hw; constructor; auto.
    apply (flight_between_marks _ _ _ _ _ Hmo); assumption.
  - destruct (bt s1); [contradiction | discriminate].
  - rewrite sum_rev, <- sum_distance_map. reflexivity.
  - apply in_int_iff. apply (sums_in_int_total (bt s1) 0 Hs Hne).
Qed.

(** No flight of [main] arrives in New York. *)
Lemma nothing_leads_to_New_York (u : string_view) :
  ~ connected (db main_db) u (sv "New York").
Proof.
  intros H. remember (sv "New York") as v eqn:Ev.
  induction H as [u v w (g & Hin & _ & Ht & _)|u x v w _ _ IH]; [|auto].
  subst v. simpl in Hin.
  repeat (destruct Hin as [<-|Hin]; [vm_compute in Ht; discriminate Ht|]).
  contradiction.
Qed.

(** ** The lookups on names that can be read *)

Lemma differs_iff (q : city_pair) (g : Flight) :
  terminated g -> differs q g <-> ~ matches g q.
Proof.
  intros [Hf Ht]. unfold differs. split.
  - intros H Hm. apply Flight_eq_matches in Hm. rewrite Hm in H.
    discriminate.
  - intros H. destruct q as [o d].
    destruct (Flight_eq g (o, d)) as [[|]|] eqn:E; [| reflexivity |].
    + exfalso. apply H. apply Flight_eq_matches. exact E.
    + exfalso. unfold Flight_eq, compare0 in E.
      destruct (c_str (from g)); [|contradiction].
      destruct (sv_eqb o s); [|discriminate].
      destruct (c_str (to g)); [discriminate | contradiction].
Qed.

Lemma Forall_differs_iff (q : city_pair) (l : list Flight) :
  Forall terminated l ->
  Forall (differs q) l <-> Forall (fun g => ~ matches g q) l.
Proof.
  induction 1 as [|g l Hg _ IH]; [split; constructor|].
  split; intros H; inversion H; subst; constructor;
    try (apply (differs_iff q g Hg); assumption); apply IH; assumption.
Qed.

Lemma passed_over_iff (frm : string_view) (g : Flight) :
  terminated g -> passed_over frm g <-> ~ departs frm g.
Proof.
  intros [Hf _]. unfold passed_over, departs, compare0.
  destruct (c_str (from g)) as [v|]; [|contradiction]. split.
  - intros (b & Hb & Hs) [Hv Hk]. inversion Hv; subst v.
    rewrite sv_eqb_refl in Hb. inversion Hb; subst b.
    rewrite Hk in Hs. discriminate.
  - intros H. exists (sv_eqb frm v). split; [reflexivity|].
    destruct (sv_eqb frm v) eqn:E; [|reflexivity].
    apply sv_eqb_eq in E. subst v.
    destruct (skip g) eqn:Hk; [reflexivity|].
    exfalso. apply H. auto.
Qed.

Lemma Forall_passed_over_iff (frm : string_view) (l : list Flight) :
  Forall terminated l ->
  Forall (passed_over frm) l <-> Forall (fun g => ~ departs frm g) l.
Proof.
  induction 1 as [|g l Hg _ IH]; [split; constructor|].
  split; intros H; inversion H; subst; constructor;
    try (apply (passed_over_iff frm g Hg); assumption); apply IH; assumption.
Qed.

(** C7 fails on the code. A database receives one flight, under an origin
    of exactly twenty letters, which the array stores in full and without
    terminator.  [get_distance] for the very pair the flight was inserted
    with does not return its distance, nor a not-found result: the
    comparison reads past the array.  Both strategies, and so [route], start
    with that comparison or reach it. *)
Lemma get_distance_reads_past_a_twenty_letter_origin :
  append_flight (twenty_letters, sv "B") 5 (FlightDB_new 2) =
  Ok tt {| db := [Flight_new (twenty_letters, sv "B") 5]; bt := [] |} /\
  from (Flight_new (twenty_letters, sv "B") 5) = twenty_letters /\
  c_str (to (Flight_new (twenty_letters, sv "B") 5)) = Some (sv "B") /\
  get_distance (twenty_letters, sv "B")
    {| db := [Flight_new (twenty_letters, sv "B") 5]; bt := [] |} =
  Undefined BufferOverrun /\
  search_flight DepthFirst (twenty_letters, sv "B")
    {| db := [Flight_new (twenty_letters, sv "B") 5]; bt := [] |} =
  Undefined BufferOverrun /\
  route DepthFirst (twenty_letters, sv "B") [NUL]
    {| db := [Flight_new (twenty_letters, sv "B") 5]; bt := [] |} =
  Undefined BufferOverrun.
Proof. repeat split. Qed.

(** X19. [get_distance] on names that can be read.  In every state in
    which the stored names hold their terminators, [get_distance] returns,
    with the state as it was: the distance of the first flight, in insertion
    order, whose stored origin and destination are exactly the two names
    asked for, and nothing when no flight matches; the answer is the same in
    every state with the same flights and other [skip] marks.  More
    precisely it is enough that the arrays the scan reads can be read: the
    flights before the first match are read and differ. *)
Theorem get_distance_first_exact_match (s : FlightDB) (q : city_pair) :
  (Forall terminated (db s) ->
   exists r,
     get_distance q s = Ok r s /\
     match r with
     | Some w =>
         exists l1 f l2,
           db s = l1 ++ f :: l2 /\ Forall (fun g => ~ matches g q) l1 /\
           matches f q /\ w = distance f
     | None => Forall (fun g => ~ matches g q) (db s)
     end /\
     (forall s2, map clear_skip (db s2) = map clear_skip (db s) ->
                 get_distance q s2 = Ok r s2)) /\
  (forall l1 f l2,
      db s = l1 ++ f :: l2 -> Forall (differs q) l1 -> matches f q ->
      get_distance q s = Ok (Some (distance f)) s) /\
  (Forall (differs q) (db s) -> get_distance q s = Ok None s) /\
  (forall w s', get_distance q s = Ok (Some w) s' ->
      s' = s /\
      exists l1 f l2, db s = l1 ++ f :: l2 /\ Forall (differs q) l1 /\
                      matches f q /\ distance f = w) /\
  (forall s', get_distance q s = Ok None s' ->
      s' = s /\ Forall (differs q) (db s)) /\
  (forall s2 r, map clear_skip (db s2) = map clear_skip (db s) ->
      get_distance q s = Ok r s -> get_distance q s2 = Ok r s2).
Proof.
  assert (Hclear : forall s2 r,
             map clear_skip (db s2) = map clear_skip (db s) ->
             get_distance q s = Ok r s -> get_distance q s2 = Ok r s2).
  { intros s2 r Hm. pose proof (find_if_marks (db s) (db s2) q Hm) as H.
    unfold get_distance.
    destruct (find_if (db s) q) as [[f|]|], (find_if (db s2) q) as [[f'|]|];
      try contradiction; try discriminate.
    + intros E; inversion E; subst. rewrite H. reflexivity.
    + intros E; inversion E; subst. reflexivity. }
  split.
  { intros Ht. pose proof (find_if_terminated (db s) q Ht) as Hn.
    destruct (find_if (db s) q) as [[f|]|] eqn:E; [| |contradiction].
    - assert (Hg : get_distance q s = Ok (Some (distance f)) s)
        by (unfold get_distance; rewrite E; reflexivity).
      exists (Some (distance f)). split; [exact Hg|]. split.
      + destruct (find_if_Some_inv _ _ _ E) as (l1 & l2 & Hl & Hd & Hm).
        exists l1, f, l2. split; [assumption|]. split; [|auto].
        apply Forall_differs_iff; [|assumption].
        rewrite Hl in Ht. apply Forall_app in Ht. apply Ht.
      + intros s2 Hm. apply Hclear; assumption.
    - assert (Hg : get_distance q s = Ok None s)
        by (unfold get_distance; rewrite E; reflexivity).
      exists None. split; [exact Hg|]. split.
      + apply Forall_differs_iff; [assumption|].
        apply find_if_None_inv; assumption.
      + intros s2 Hm. apply Hclear; assumption. }
  split; [intros l1 f l2; apply get_distance_first|].
  split; [apply get_distance_none|].
  split; [|split; [|exact Hclear]].
  - intros w s'. unfold get_distance.
    destruct (find_if (db s) q) as [[f|]|] eqn:E; try discriminate.
    intros H; inversion H; subst. split; [reflexivity|].
    destruct (find_if_Some_inv _ _ _ E) as (l1 & l2 & Hl & Hd & Hm).
    exists l1, f, l2. auto.
  - intros s'. unfold get_distance.
    destruct (find_if (db s) q) as [[f|]|] eqn:E; try discriminate.
    intros H; inversion H; subst. split; [reflexivity|].
    apply find_if_None_inv; assumption.
Qed.

(** The database of [main], whose names all hold their terminators: New
    York -> Denver is the fourth flight, no flight goes from Denver to New
    York, and the marks left by a search do not change the answer. *)
Lemma get_distance_first_exact_match_witness :
  (exists r,
     get_distance (sv "New York", sv "Denver") main_db = Ok r main_db /\
     match r with
     | Some w =>
         exists l1 f l2,
           db main_db = l1 ++ f :: l2 /\
           Forall (fun g => ~ matches g (sv "New York", sv "Denver")) l1 /\
           matches f (sv "New York", sv "Denver") /\ w = distance f
     | None =>
         Forall (fun g => ~ matches g (sv "New York", sv "Denver"))
                (db main_db)
     end /\
     (forall s2, map clear_skip (db s2) = map clear_skip (db main_db) ->
                 get_distance (sv "New York", sv "Denver") s2 = Ok r s2)) /\
  get_distance (sv "New York", sv "Denver") main_db = Ok (Some 1900) main_db /\
  get_distance (sv "Denver", sv "New York") main_db = Ok None main_db /\
  get_distance (sv "New York", sv "Denver") main_db_after =
  Ok (Some 1900) main_db_after.
Proof.
  assert (H : get_distance (sv "New York", sv "Denver") main_db =
              Ok (Some 1900) main_db).
  { apply (proj1 (proj2 (get_distance_first_exact_match main_db
                           (sv "New York", sv "Denver")))
             (firstn 3 (db main_db))
             (nth 3 (db main_db) (Flight_new ([], []) 0))
             (skipn 4 (db main_db))).
    - reflexivity.
    - repeat constructor.
    - split; reflexivity. }
  split.
  { apply (proj1 (get_distance_first_exact_match main_db
                    (sv "New York", sv "Denver"))).
    repeat constructor; discriminate. }
  split; [exact H|]. split.
  - apply (proj1 (proj2 (proj2 (get_distance_first_exact_match main_db
                           (sv "Denver", sv "New York"))))).
    repeat constructor.
  - apply (proj2 (proj2 (proj2 (proj2 (proj2
             (get_distance_first_exact_match main_db
                (sv "New York", sv "Denver"))))))
             main_db_after (Some 1900)).
    + reflexivity.
    + exact H.
Defined.

(** C6 fails on the code. A database receives one flight from A, under a
    destination of exactly twenty letters, which the array stores in full
    and without terminator.  [find_connecting] from A finds the flight,
    unmarked, but does not return its destination: building the returned
    name reads past the array.  The lookahead strategy, and so [route],
    starts with that call. *)
Lemma find_connecting_reads_past_a_twenty_letter_destination :
  append_flight (sv "A", twenty_letters) 5 (FlightDB_new 2) =
  Ok tt {| db := [Flight_new (sv "A", twenty_letters) 5]; bt := [] |} /\
  c_str (from (Flight_new (sv "A", twenty_letters) 5)) = Some (sv "A") /\
  skip (Flight_new (sv "A", twenty_letters) 5) = false /\
  to (Flight_new (sv "A", twenty_letters) 5) = twenty_letters /\
  find_connecting (sv "A")
    {| db := [Flight_new (sv "A", twenty_letters) 5]; bt := [] |} =
  Undefined BufferOverrun /\
  search_flight BreadthFirst (sv "A", twenty_letters)
    {| db := [Flight_new (sv "A", twenty_letters) 5]; bt := [] |} =
  Undefined BufferOverrun /\
  route BreadthFirst (sv "A", twenty_letters) [NUL]
    {| db := [Flight_new (sv "A", twenty_letters) 5]; bt := [] |} =
  Undefined BufferOverrun.
Proof. repeat split. Qed.

(** X20. [find_connecting] on names that can be read.  In every state in
    which the stored names hold their terminators, [find_connecting]
    returns.  It takes the first flight, in insertion order, whose stored
    origin is the name asked for and whose [skip] mark is down: in the new
    state that flight has its [skip] mark up and is otherwise as it was,
    nothing else has changed, and the call returns that flight's destination
    and distance.  When there is no such flight it returns nothing and the
    state is as it was.  More precisely it is enough that the arrays the
    call reads can be read: the origins of the flights up to the one taken,
    and its destination. *)
Theorem find_connecting_first_unvisited (s : FlightDB) (frm : string_view) :
  (Forall terminated (db s) ->
   exists r s',
     find_connecting frm s = Ok r s' /\
     match r with
     | Some (anywhere, w) =>
         exists l1 f l2,
           db s = l1 ++ f :: l2 /\ Forall (fun g => ~ departs frm g) l1 /\
           departs frm f /\ c_str (to f) = Some anywhere /\ w = distance f /\
           s' = {| db := l1 ++ {| from := from f; to := to f; skip := true;
                                  distance := distance f |} :: l2;
                   bt := bt s |}
     | None => Forall (fun g => ~ departs frm g) (db s) /\ s' = s
     end) /\
  (forall l1 f l2 anywhere,
      db s = l1 ++ f :: l2 -> Forall (passed_over frm) l1 ->
      c_str (from f) = Some frm -> skip f = false ->
      c_str (to f) = Some anywhere ->
      find_connecting frm s =
      Ok (Some (anywhere, distance f))
         {| db := l1 ++ {| from := from f; to := to f; skip := true;
                           distance := distance f |} :: l2;
            bt := bt s |}) /\
  (Forall (passed_over frm) (db s) -> find_connecting frm s = Ok None s) /\
  (forall anywhere w s',
      find_connecting frm s = Ok (Some (anywhere, w)) s' ->
      exists l1 f l2,
        db s = l1 ++ f :: l2 /\ Forall (passed_over frm) l1 /\
        c_str (from f) = Some frm /\ skip f = false /\
        c_str (to f) = Some anywhere /\ distance f = w /\
        s' = {| db := l1 ++ {| from := from f; to := to f; skip := true;
                               distance := distance f |} :: l2;
                bt := bt s |}) /\
  (forall s', find_connecting frm s = Ok None s' ->
      s' = s /\ Forall (passed_over frm) (db s)).
Proof.
  split.
  { intros Ht.
    destruct (find_connecting_cases frm s) as [(a & w & s1 & H)|[H|H]].
    - exists (Some (a, w)), s1. split; [exact H|].
      destruct (find_connecting_Some_inv _ _ _ _ _ H)
        as (l1 & f & l2 & Hl & Hp & Hf & Hk & Hto & Hd & Hs).
      exists l1, f, l2. split; [assumption|]. split.
      + apply Forall_passed_over_iff; [|assumption].
        rewrite Hl in Ht. apply Forall_app in Ht. apply Ht.
      + split; [split; assumption|]. split; [assumption|].
        split; [auto | exact Hs].
    - exists None, s. split; [exact H|]. split; [|reflexivity].
      apply Forall_passed_over_iff; [assumption|].
      apply (find_connecting_None_inv _ _ _ H).
    - exfalso. exact (find_connecting_defined _ _ Ht H). }
  split; [|split; [|split]].
  - intros l1 f l2 anywhere Hdb Hp Hf Hs Ht. unfold find_connecting.
    rewrite Hdb, (connecting_first _ _ _ _ Hp Hf Hs).
    unfold bind, view_of, ret. rewrite Ht. reflexivity.
  - intros Hp. unfold find_connecting. rewrite (connecting_none _ _ Hp).
    rewrite state_eta. reflexivity.
  - intros anywhere w s'. apply find_connecting_Some_inv.
  - intros s'. apply find_connecting_None_inv.
Qed.

(** The database of [main]: from New York the first flight goes to
    Chicago, and the call raises its mark and no other; from Los Angeles
    there is no flight. *)
Lemma find_connecting_first_unvisited_witness :
  find_connecting (sv "New York") main_db =
  Ok (Some (sv "Chicago", 1000))
     {| db := with_marks (db main_db)
                [true; false; false; false; false; false; false; false;
                 false; false; false];
        bt := [] |} /\
  find_connecting (sv "Los Angeles") main_db = Ok None main_db /\
  exists r s',
    find_connecting (sv "Toronto") main_db = Ok r s' /\
    match r with
    | Some (anywhere, w) =>
        exists l1 f l2,
          db main_db = l1 ++ f :: l2 /\
          Forall (fun g => ~ departs (sv "Toronto") g) l1 /\
          departs (sv "Toronto") f /\ c_str (to f) = Some anywhere /\
          w = distance f /\
          s' = {| db := l1 ++ {| from := from f; to := to f; skip := true;
                                 distance := distance f |} :: l2;
                  bt := bt main_db |}
    | None =>
        Forall (fun g => ~ departs (sv "Toronto") g) (db main_db) /\
        s' = main_db
    end.
Proof.
  split; [|split].
  - apply (proj1 (proj2 (find_connecting_first_unvisited main_db
                           (sv "New York")))
             [] (nth 0 (db main_db) (Flight_new ([], []) 0))
             (skipn 1 (db main_db)) (sv "Chicago")).
    + reflexivity.
    + constructor.
    + reflexivity.
    + reflexivity.
    + reflexivity.
  - apply (proj1 (proj2 (proj2 (find_connecting_first_unvisited main_db
                                  (sv "Los Angeles"))))).
    repeat constructor; exists false; split; reflexivity.
  - apply (proj1 (find_connecting_first_unvisited main_db (sv "Toronto"))).
    repeat constructor; discriminate.
Defined.

(** ** Insertion *)

(** C3, as stated, fails: a database of capacity 2 that holds 2 flights
    accepts a third one; [append_flight] returns and the vector has grown. *)
Lemma append_flight_beyond_capacity :
  length (db full_of_two) = 2%nat /\
  append_flight (sv "C", sv "D") 3 full_of_two =
  Ok tt {| db := db full_of_two ++ [Flight_new (sv "C", sv "D") 3];
           bt := bt full_of_two |} /\
  db full_of_two ++ [Flight_new (sv "C", sv "D") 3] <> db full_of_two /\
  length (db full_of_two ++ [Flight_new (sv "C", sv "D") 3]) = 3%nat.
Proof.
  split; [reflexivity|]. split; [reflexivity|]. split; [|reflexivity].
  intros H. apply (f_equal (@length Flight)) in H. discriminate H.
Qed.

(** C3, amended. [N] is only the room reserved at construction: on a
    database that already holds [N] flights, [append_flight] returns
    normally, the new flight is stored after the [N] old ones with its mark
    down, and the old flights and the stack are as they were. *)
Theorem append_flight_always_appends (N : nat) (s : FlightDB)
        (from_to : city_pair) (dist : Z) :
  length (db s) = N ->
  exists s',
    append_flight from_to dist s = Ok tt s' /\
    db s' = db s ++ [Flight_new from_to dist] /\
    firstn N (db s') = db s /\
    length (db s') = S N /\
    skip (Flight_new from_to dist) = false /\
    distance (Flight_new from_to dist) = dist /\
    bt s' = bt s.
Proof.
  intros HN.
  exists {| db := db s ++ [Flight_new from_to dist]; bt := bt s |}.
  simpl. repeat split.
  - rewrite <- HN, firstn_app, Nat.sub_diag, firstn_all. simpl.
    apply app_nil_r.
  - rewrite length_app, HN. simpl. lia.
  - destruct from_to; reflexivity.
  - destruct from_to; reflexivity.
Qed.

Lemma append_flight_always_appends_witness :
  exists s',
    append_flight (sv "C", sv "D") 3 full_of_two = Ok tt s' /\
    db s' = db full_of_two ++ [Flight_new (sv "C", sv "D") 3] /\
    firstn 2 (db s') = db full_of_two /\
    length (db s') = 3%nat /\
    skip (Flight_new (sv "C", sv "D") 3) = false /\
    distance (Flight_new (sv "C", sv "D") 3) = 3 /\
    bt s' = bt full_of_two.
Proof.
  apply (append_flight_always_appends 2 full_of_two (sv "C", sv "D") 3).
  reflexivity.
Defined.

(** ** The depth-first strategy *)

(** C1 fails on the code. In the database of [main] no flights lead from
    Chicago to New York; the search backtracks until the stack is empty and
    then reads and pops the top of the empty stack. *)
Theorem search_flight_df_underflows :
  ~ connected (db main_db) (sv "Chicago") (sv "New York") /\
  search_flight DepthFirst (sv "Chicago", sv "New York") main_db =
  Undefined StackUnderflow.
Proof.
  split; [apply nothing_leads_to_New_York|]. vm_compute. reflexivity.
Qed.

(** C4, as stated, fails: with flights A -> B and B -> C, searching from A
    for C takes the flight to B and recurses on (B, C), but the frame it
    pushes holds the searched destination C where the claim has B. *)
Lemma pushed_frame_is_not_the_flight_taken :
  find_connecting (sv "A") two_hops =
  Ok (Some (sv "B", 5))
     {| db := [set_skip (Flight_new (sv "A", sv "B") 5);
               Flight_new (sv "B", sv "C") 7];
        bt := [] |} /\
  search_flight_df_body (sv "A", sv "C") two_hops =
  Ok (Recurse (sv "B", sv "C"))
     {| db := [set_skip (Flight_new (sv "A", sv "B") 5);
               Flight_new (sv "B", sv "C") 7];
        bt := [Flight_new (sv "A", sv "C") 5] |} /\
  Flight_new (sv "A", sv "C") 5 <> Flight_new (sv "A", sv "B") 5 /\
  to (Flight_new (sv "A", sv "C") 5) <> copy (sv "B").
Proof.
  split; [reflexivity|]. split; [reflexivity|].
  split; intros H; vm_compute in H; discriminate H.
Qed.

(** C4, amended. In the extension step, when the direct check has not
    succeeded and [find_connecting] yields [(anywhere, w)], the frame pushed
    is [Flight(from_to, w)]: its origin is the current origin, its
    destination is the destination searched for (which is what backtracking
    later reads back from the frame), its distance is [w] and its mark is
    down; the search then recurses with [(anywhere, destination)]. *)
Theorem extension_pushes_origin_and_searched_destination
        (frm dst anywhere : string_view) (o : option Z) (w : Z)
        (s s1 : FlightDB) :
  get_distance (frm, dst) s = Ok o s -> value_or o 0 <= 0 ->
  find_connecting frm s = Ok (Some (anywhere, w)) s1 ->
  search_flight_df_body (frm, dst) s =
  Ok (Recurse (anywhere, dst))
     {| db := db s1;
        bt := {| from := copy frm; to := copy dst; skip := false;
                 distance := w |} :: bt s |}.
Proof.
  intros Hg Hd Hf. unfold search_flight_df_body, bind at 1. rewrite Hg.
  apply Z.ltb_ge in Hd. rewrite Hd.
  unfold try_another_connection, bind at 1. rewrite Hf.
  unfold bind, bt_emplace, ret. simpl.
  rewrite (find_connecting_bt _ _ _ _ Hf). reflexivity.
Qed.

Lemma extension_pushes_origin_and_searched_destination_witness :
  search_flight_df_body (sv "A", sv "C") two_hops =
  Ok (Recurse (sv "B", sv "C"))
     {| db := [set_skip (Flight_new (sv "A", sv "B") 5);
               Flight_new (sv "B", sv "C") 7];
        bt := [{| from := copy (sv "A"); to := copy (sv "C"); skip := false;
                  distance := 5 |}] |}.
Proof.
  apply (extension_pushes_origin_and_searched_destination
           (sv "A") (sv "C") (sv "B") None 5 two_hops
           {| db := [set_skip (Flight_new (sv "A", sv "B") 5);
                     Flight_new (sv "B", sv "C") 7];
              bt := [] |}).
  - reflexivity.
  - simpl. lia.
  - reflexivity.
Defined.

(** C10, as stated, fails: the database holds an exact flight A -> B of
    distance 0, but an earlier parallel flight A -> B has distance 5; the
    direct check succeeds on the earlier one and the activation returns,
    where the extension step would have marked a flight and recursed. *)
Lemma zero_flight_behind_a_parallel_one :
  matches (nth 1 (db parallel_AB) (Flight_new ([], []) 1)) (sv "A", sv "B") /\
  distance (nth 1 (db parallel_AB) (Flight_new ([], []) 1)) = 0 /\
  search_flight_df_body (sv "A", sv "B") parallel_AB =
  Ok Return {| db := db parallel_AB;
               bt := [Flight_new (sv "A", sv "B") 5] |} /\
  try_another_connection (sv "A", sv "B") parallel_AB =
  Ok (Recurse (sv "B", sv "B"))
     {| db := [set_skip (Flight_new (sv "A", sv "B") 5);
               Flight_new (sv "A", sv "B") 0];
        bt := [Flight_new (sv "A", sv "B") 5] |} /\
  search_flight_df_body (sv "A", sv "B") parallel_AB <>
  try_another_connection (sv "A", sv "B") parallel_AB.
Proof.
  split; [split; reflexivity|]. split; [reflexivity|].
  split; [reflexivity|]. split; [reflexivity|].
  intros H; vm_compute in H; discriminate H.
Qed.

(** C10, amended. When the first exact flight from origin to destination,
    in insertion order, has distance 0, the direct check does not accept it:
    the activation is the extension step, as it is when no flight matches.
    An activation that returns has pushed a frame of positive distance, the
    one [get_distance] gave: a flight of distance 0 never ends a branch. *)
Theorem zero_distance_direct_flight_is_not_accepted
        (s : FlightDB) (q : city_pair) :
  (forall l1 f l2,
      db s = l1 ++ f :: l2 -> Forall (differs q) l1 -> matches f q ->
      distance f = 0 ->
      search_flight_df_body q s = try_another_connection q s) /\
  (Forall (differs q) (db s) ->
   search_flight_df_body q s = try_another_connection q s) /\
  (forall s', search_flight_df_body q s = Ok Return s' ->
      exists w, 0 < w /\ get_distance q s = Ok (Some w) s /\
                s' = {| db := db s; bt := Flight_new q w :: bt s |}).
Proof.
  split; [|split].
  - intros l1 f l2 Hdb Hd Hm Hz.
    pose proof (get_distance_first s q l1 l2 f Hdb Hd Hm) as Hg.
    unfold search_flight_df_body, bind at 1. rewrite Hg, Hz. reflexivity.
  - intros Hd.
    pose proof (get_distance_none s q Hd) as Hg.
    unfold search_flight_df_body, bind at 1. rewrite Hg. reflexivity.
  - intros s' E. pose proof (df_body_step q s) as H. rewrite E in H.
    inversion H as [w Hg Hw E' | | | | ]. exists w. auto.
Qed.

Lemma zero_distance_direct_flight_is_not_accepted_witness :
  search_flight_df_body (sv "A", sv "B") zero_AB =
  try_another_connection (sv "A", sv "B") zero_AB.
Proof.
  apply (proj1 (zero_distance_direct_flight_is_not_accepted zero_AB
                  (sv "A", sv "B"))
           [] (Flight_new (sv "A", sv "B") 0) []).
  - reflexivity.
  - constructor.
  - split; reflexivity.
  - reflexivity.
Defined.

(** C5 fails on the code. In the database of [main] flights lead from New
    York to Los Angeles; [route] finds New York -> Chicago -> Denver ->
    Los Angeles and reports the distance 3000, but it prints the stack from
    its top: Denver, Chicago, New York, and then the destination.  The first
    name printed is the origin of the last flight, not the origin asked
    for. *)
Theorem route_prints_the_path_backwards :
  connected (db main_db) (sv "New York") (sv "Los Angeles") /\
  route DepthFirst (sv "New York", sv "Los Angeles") [NUL] main_db =
  Ok {| stops := [sv "Denver"; sv "Chicago"; sv "New York"];
        last_stop := sv "Los Angeles";
        total := 3000 |}
     {| db := with_marks (db main_db)
                [true; true; false; false; false; false; false; false; false;
                 false; false];
        bt := [] |} /\
  hd_error [sv "Denver"; sv "Chicago"; sv "New York"] <> Some (sv "New York").
Proof.
  split; [|split].
  - apply connected_via with (sv "Toronto") 800.
    + exists (Flight_new (sv "New York", sv "Toronto") 800).
      split; [simpl; tauto | repeat split].
    + apply connected_direct with 1800.
      exists (Flight_new (sv "Toronto", sv "Los Angeles") 1800).
      split; [simpl; tauto | repeat split].
  - vm_compute. reflexivity.
  - intros H; vm_compute in H; discriminate H.
Qed.

(** ** The lookahead strategy *)

(** C2 fails on the code. In the database of [main] Toronto has three
    flights, to Calgary, Los Angeles and Chicago, and none of these has a
    flight to Urbana.  The loop takes the three in turn; the fourth
    [find_connecting] returns nothing and [res.value()] throws
    [std::bad_optional_access] out of [search_flight]: nothing is returned
    and nothing is on the stack. *)
Theorem search_flight_bf_throws_when_exhausted :
  search_flight BreadthFirst (sv "Toronto", sv "Urbana") main_db =
  BadOptionalAccess
    {| db := with_marks (db main_db)
               [false; false; false; false; true; true; true; false; false;
                false; false];
       bt := [] |}.
Proof. vm_compute. reflexivity. Qed.

(** ** Names longer than the arrays, names with NUL *)

(** C9, as stated, fails: AB and AB followed by NUL are two names that are
    stored as the same 20 characters, so the two flights below are the same
    record; yet the lookups find it under AB and do not find it under the
    other name, which is the one it was inserted with. *)
Lemma same_stored_characters_different_locations :
  sv "AB" <> AB_NUL /\
  copy (sv "AB") = copy AB_NUL /\
  Flight_new (sv "AB", sv "C") 5 = Flight_new (AB_NUL, sv "C") 5 /\
  get_distance (sv "AB", sv "C")
    {| db := [Flight_new (AB_NUL, sv "C") 5]; bt := [] |} =
  Ok (Some 5) {| db := [Flight_new (AB_NUL, sv "C") 5]; bt := [] |} /\
  get_distance (AB_NUL, sv "C")
    {| db := [Flight_new (AB_NUL, sv "C") 5]; bt := [] |} =
  Ok None {| db := [Flight_new (AB_NUL, sv "C") 5]; bt := [] |} /\
  find_connecting (sv "AB")
    {| db := [Flight_new (AB_NUL, sv "C") 5]; bt := [] |} =
  Ok (Some (sv "C", 5))
     {| db := [set_skip (Flight_new (AB_NUL, sv "C") 5)]; bt := [] |} /\
  find_connecting AB_NUL
    {| db := [Flight_new (AB_NUL, sv "C") 5]; bt := [] |} =
  Ok None {| db := [Flight_new (AB_NUL, sv "C") 5]; bt := [] |}.
Proof.
  split; [intros H; vm_compute in H; discriminate H|].
  repeat split; reflexivity.
Qed.

Lemma copy_same_prefix (v w : string_view) :
  firstn NAME_SIZE v = firstn NAME_SIZE w -> copy v = copy w.
Proof.
  intros H. rewrite !copy_unfold, H. f_equal. f_equal.
  apply (f_equal (@length ascii)) in H. rewrite !length_firstn in H. lia.
Qed.

Lemma c_str_no_NUL (a : char_array) :
  Forall (fun c => is_NUL c = false) a -> c_str a = None.
Proof.
  induction 1 as [|c r Hc _ IH]; simpl; [reflexivity|].
  rewrite Hc, IH. reflexivity.
Qed.

(** A name of 20 characters or more, without NUL among the first 20,
    leaves its array without terminator: reading it back is undefined. *)
Lemma c_str_copy_long (v : string_view) :
  (NAME_SIZE <= length v)%nat ->
  Forall (fun c => is_NUL c = false) (firstn NAME_SIZE v) ->
  c_str (copy v) = None.
Proof.
  intros Hl Hn. rewrite copy_unfold.
  replace (NAME_SIZE - length v)%nat with 0%nat by lia.
  cbn [repeat]. rewrite app_nil_r. apply c_str_no_NUL; assumption.
Qed.

(** A flight inserted under an origin of 20 characters or more has no
    terminator in its origin array: both lookups read past the array,
    whatever name they are asked for. *)
Lemma long_origin_lookups_overrun (o d o' d' : string_view) (w : Z)
      (stack : list Flight) :
  (NAME_SIZE <= length o)%nat ->
  Forall (fun c => is_NUL c = false) (firstn NAME_SIZE o) ->
  get_distance (o', d') {| db := [Flight_new (o, d) w]; bt := stack |} =
  Undefined BufferOverrun /\
  find_connecting o' {| db := [Flight_new (o, d) w]; bt := stack |} =
  Undefined BufferOverrun.
Proof.
  intros Hl Hn. pose proof (c_str_copy_long o Hl Hn) as Hc.
  unfold get_distance, find_connecting.
  cbn [db find_if connecting Flight_new Flight_eq from]. unfold compare0.
  rewrite Hc. split; reflexivity.
Qed.

Lemma find_if_insert (f : Flight) (q : city_pair) :
  Flight_eq f q = Read false ->
  forall n l, find_if (firstn n l ++ f :: skipn n l) q = find_if l q.
Proof.
  intros Hf. induction n as [|n IH]; intros l.
  - simpl. rewrite Hf. reflexivity.
  - destruct l as [|g l]; simpl.
    + rewrite Hf. reflexivity.
    + destruct (Flight_eq g q) as [[|]|]; auto.
Qed.

Lemma connecting_insert (f : Flight) (frm : string_view) :
  passed_over frm f ->
  forall n l,
    connecting (firstn n l ++ f :: skipn n l) frm =
    match connecting l frm with
    | Read (l', res) => Read (firstn n l' ++ f :: skipn n l', res)
    | Overrun => Overrun
    end.
Proof.
  intros (b & Hb & Hs). induction n as [|n IH]; intros l.
  - simpl. rewrite Hb, Hs. destruct (connecting l frm) as [[l' res]|];
      reflexivity.
  - destruct l as [|g l]; simpl.
    + rewrite Hb, Hs. reflexivity.
    + destruct (compare0 frm (from g)) as [bg|]; [|reflexivity].
      destruct (bg && negb (skip g)); [reflexivity|].
      rewrite IH. destruct (connecting l frm) as [[l' res]|]; reflexivity.
Qed.

Lemma get_distance_insert (f : Flight) (q : city_pair) (n : nat)
      (s0 : FlightDB) :
  Flight_eq f q = Read false ->
  get_distance q (put_back n f s0) = with_flight n f (get_distance q s0).
Proof.
  intros Hf. unfold get_distance, put_back. cbn [db].
  rewrite (find_if_insert f q Hf).
  destruct (find_if (db s0) q) as [[g|]|]; reflexivity.
Qed.

Lemma find_connecting_insert (f : Flight) (frm : string_view) (n : nat)
      (s0 : FlightDB) :
  passed_over frm f ->
  find_connecting frm (put_back n f s0) =
  with_flight n f (find_connecting frm s0).
Proof.
  intros Hf. unfold find_connecting, put_back. cbn [db bt].
  rewrite (connecting_insert f frm Hf).
  destruct (connecting (db s0) frm) as [[l' [g|]]|]; try reflexivity.
  unfold bind, view_of, ret. destruct (c_str (to g)); reflexivity.
Qed.

(** C9, amended. A flight stores of each name the first 20 characters at
    most, in a 20-character array padded with NUL, so names with the same
    first 20 characters give the same stored record.  The lookups compare
    the whole name asked for with the stored characters up to the first
    NUL.  For a flight inserted under names that fit their arrays (shorter
    than 20 characters, no NUL), wherever it stands among the other flights
    of the database, [get_distance] and [find_connecting] answer with it for
    exactly those names and for no other: asked for its own pair, or its
    own origin while it is unmarked, with the flights before it read and
    set aside, they answer with it; asked for any other pair or origin they
    answer as they do on the database without it.  Distinct names are
    distinct locations. *)
Theorem names_are_stored_cut_and_compared_whole
        (o d : string_view) (w : Z) :
  (from (Flight_new (o, d) w) =
     firstn NAME_SIZE o ++ repeat NUL (NAME_SIZE - length o) /\
   to (Flight_new (o, d) w) =
     firstn NAME_SIZE d ++ repeat NUL (NAME_SIZE - length d) /\
   length (from (Flight_new (o, d) w)) = NAME_SIZE /\
   length (to (Flight_new (o, d) w)) = NAME_SIZE /\
   Flight_new (o, d) w = stored o d w false) /\
  (forall o' d', firstn NAME_SIZE o' = firstn NAME_SIZE o ->
                 firstn NAME_SIZE d' = firstn NAME_SIZE d ->
                 Flight_new (o', d') w = Flight_new (o, d) w) /\
  (fits o -> fits d ->
   forall b : bool,
     (forall o' d', matches (stored o d w b) (o', d') <-> o' = o /\ d' = d) /\
     (forall o', departs o' (stored o d w b) <-> o' = o /\ b = false) /\
     (forall l1 l2 stack,
         Forall (differs (o, d)) l1 ->
         get_distance (o, d)
           {| db := l1 ++ stored o d w b :: l2; bt := stack |} =
         Ok (Some w) {| db := l1 ++ stored o d w b :: l2; bt := stack |}) /\
     (forall l1 l2 stack,
         Forall (passed_over o) l1 ->
         find_connecting o
           {| db := l1 ++ stored o d w false :: l2; bt := stack |} =
         Ok (Some (d, w))
            {| db := l1 ++ stored o d w true :: l2; bt := stack |}) /\
     (forall o' d' n s0,
         o' <> o \/ d' <> d ->
         get_distance (o', d') (put_back n (stored o d w b) s0) =
         with_flight n (stored o d w b) (get_distance (o', d') s0)) /\
     (forall o' n s0,
         o' <> o \/ b = true ->
         find_connecting o' (put_back n (stored o d w b) s0) =
         with_flight n (stored o d w b) (find_connecting o' s0))) /\
  (fits o -> fits d ->
   forall (o' d' : string_view) (stack : list Flight),
     get_distance (o', d') {| db := [Flight_new (o, d) w]; bt := stack |} =
     Ok (if sv_eqb o' o && sv_eqb d' d then Some w else None)
        {| db := [Flight_new (o, d) w]; bt := stack |} /\
     find_connecting o' {| db := [Flight_new (o, d) w]; bt := stack |} =
     (if sv_eqb o' o
      then Ok (Some (d, w)) {| db := [stored o d w true]; bt := stack |}
      else Ok None {| db := [Flight_new (o, d) w]; bt := stack |}) /\
     (sv_eqb o' o = true <-> o' = o) /\
     (sv_eqb d' d = true <-> d' = d)).
Proof.
  split; [|split; [|split]].
  - unfold Flight_new, stored. cbn [from to fst snd].
    rewrite !length_copy, !copy_unfold. repeat split; reflexivity.
  - intros o' d' Ho Hd. unfold Flight_new.
    rewrite (copy_same_prefix _ _ Ho), (copy_same_prefix _ _ Hd). reflexivity.
  - intros Ho Hd b.
    assert (Hm : forall o' d',
               matches (stored o d w b) (o', d') <-> o' = o /\ d' = d).
    { intros o' d'. unfold matches, stored. simpl.
      rewrite (c_str_copy _ Ho), (c_str_copy _ Hd).
      split; [intros [H1 H2]; inversion H1; inversion H2; auto
             |intros [-> ->]; auto]. }
    assert (Hdep : forall o', departs o' (stored o d w b) <->
                              o' = o /\ b = false).
    { intros o'. unfold departs, stored. simpl. rewrite (c_str_copy _ Ho).
      split; [intros [H1 H2]; inversion H1; auto | intros [-> ->]; auto]. }
    assert (Hterm : terminated (stored o d w b)).
    { split; simpl; [rewrite (c_str_copy _ Ho) | rewrite (c_str_copy _ Hd)];
        discriminate. }
    split; [exact Hm|]. split; [exact Hdep|].
    split; [|split; [|split]].
    + intros l1 l2 stack Hl.
      apply (get_distance_first _ (o, d) l1 l2 (stored o d w b));
        [reflexivity | assumption | apply Hm; auto].
    + intros l1 l2 stack Hl. unfold find_connecting. cbn [db bt].
      rewrite (connecting_first _ _ _ _ Hl);
        [| simpl; apply c_str_copy; assumption | reflexivity].
      unfold bind, view_of, ret. simpl. rewrite (c_str_copy _ Hd).
      reflexivity.
    + intros o' d' n s0 Hne. apply get_distance_insert.
      apply (differs_iff (o', d') _ Hterm). intros H. apply Hm in H.
      destruct H as [-> ->]. destruct Hne as [Hne|Hne]; apply Hne; reflexivity.
    + intros o' n s0 Hne. apply find_connecting_insert.
      apply (passed_over_iff o' _ Hterm). intros H. apply Hdep in H.
      destruct H as [-> ->]. destruct Hne as [Hne|Hne];
        [apply Hne; reflexivity | discriminate].
  - intros Ho Hd o' d' stack. split; [|split; [|split; apply sv_eqb_eq]].
    + unfold get_distance. cbn [db find_if].
      rewrite (Flight_eq_new _ _ _ _ _ Ho Hd).
      destruct (sv_eqb o' o && sv_eqb d' d); reflexivity.
    + unfold find_connecting. cbn [db bt connecting Flight_new from skip].
      rewrite (compare0_copy _ _ Ho).
      destruct (sv_eqb o' o); simpl; [|reflexivity].
      unfold bind, view_of, ret. cbn [to]. rewrite (c_str_copy _ Hd).
      reflexivity.
Qed.

Lemma fits_sv_AB : fits (sv "AB").
Proof. split; [vm_compute; lia | repeat constructor]. Defined.

Lemma fits_sv_C : fits (sv "C").
Proof. split; [vm_compute; lia | repeat constructor]. Defined.

(** Between the two flights of [two_hops], a flight from AB to C: asked for
    AB followed by NUL, the lookups answer as they do without it; asked
    for AB they answer with it, and [find_connecting] raises its mark. *)
Lemma names_are_stored_cut_and_compared_whole_witness :
  get_distance (AB_NUL, sv "C")
    (put_back 1 (stored (sv "AB") (sv "C") 5 false) two_hops) =
  with_flight 1 (stored (sv "AB") (sv "C") 5 false)
              (get_distance (AB_NUL, sv "C") two_hops) /\
  find_connecting AB_NUL
    (put_back 1 (stored (sv "AB") (sv "C") 5 false) two_hops) =
  with_flight 1 (stored (sv "AB") (sv "C") 5 false)
              (find_connecting AB_NUL two_hops) /\
  get_distance (sv "AB", sv "C")
    {| db := firstn 1 (db two_hops) ++ stored (sv "AB") (sv "C") 5 false
               :: skipn 1 (db two_hops);
       bt := [] |} =
  Ok (Some 5)
     {| db := firstn 1 (db two_hops) ++ stored (sv "AB") (sv "C") 5 false
                :: skipn 1 (db two_hops);
        bt := [] |} /\
  find_connecting (sv "AB")
    {| db := firstn 1 (db two_hops) ++ stored (sv "AB") (sv "C") 5 false
               :: skipn 1 (db two_hops);
       bt := [] |} =
  Ok (Some (sv "C", 5))
     {| db := firstn 1 (db two_hops) ++ stored (sv "AB") (sv "C") 5 true
                :: skipn 1 (db two_hops);
        bt := [] |}.
Proof.
  destruct (proj1 (proj2 (proj2 (names_are_stored_cut_and_compared_whole
                                   (sv "AB") (sv "C") 5)))
              fits_sv_AB fits_sv_C false)
    as (_ & _ & Hg & Hf & Hg' & Hf').
  split; [|split; [|split]].
  - apply Hg'. left. intros H. vm_compute in H. discriminate H.
  - apply Hf'. left. intros H. vm_compute in H. discriminate H.
  - apply Hg. repeat constructor.
  - apply Hf. repeat constructor; exists false; split; reflexivity.
Defined.

(** ** The general results on the database of [main] *)

Ltac fits_literal := split; [vm_compute; lia | repeat constructor].

Example Chicago_to_New_York_underflows :
  search_flight DepthFirst (sv "Chicago", sv "New York") main_db =
  Undefined StackUnderflow.
Proof.
  apply search_flight_df_unreachable.
  - apply main_db_well_formed.
  - fits_literal.
  - fits_literal.
  - reflexivity.
  - apply nothing_leads_to_New_York.
Qed.

Example New_York_to_Los_Angeles_walk :
  exists ws,
    walk (db main_db)
         [sv "New York"; sv "Chicago"; sv "Denver"; sv "Los Angeles"] ws /\
    3000 = fold_right Z.add 0 ws.
Proof.
  destruct (route_df_prints_walk_reversed
              (sv "New York") (sv "Los Angeles") [NUL] main_db
              {| db := with_marks (db main_db)
                         [true; true; false; false; false; false; false;
                          false; false; false; false];
                 bt := [] |}
              {| stops := [sv "Denver"; sv "Chicago"; sv "New York"];
                 last_stop := sv "Los Angeles";
                 total := 3000 |})
    as (ws & Hw & _ & _ & _ & Ht & _ & _).
  - apply main_db_well_formed.
  - fits_literal.
  - fits_literal.
  - reflexivity.
  - vm_compute. reflexivity.
  - exists ws. split; [exact Hw | exact Ht].
Qed.

(** Names are compared character by character: a different case is a
    different name. *)
Example get_distance_is_case_sensitive :
  get_distance (sv "New York", sv "Chicago") main_db = Ok (Some 1000) main_db /\
  get_distance (sv "new york", sv "Chicago") main_db = Ok None main_db.
Proof. split; reflexivity. Qed.

(** A single flight A -> B of distance 0: B is reached from A by a flight,
    yet the search from A for B ends on the empty stack. *)
Example zero_distance_flight_is_never_found :
  connected (db zero_AB) (sv "A") (sv "B") /\
  search_flight DepthFirst (sv "A", sv "B") zero_AB =
  Undefined StackUnderflow.
Proof.
  split; [|reflexivity].
  apply connected_direct with 0.
  exists (Flight_new (sv "A", sv "B") 0).
  split; [simpl; tauto | repeat split].
Qed.

Lemma main_db_fresh : fresh (db main_db).
Proof. repeat constructor. Qed.

Example New_York_to_Los_Angeles_is_found :
  exists s',
    search_flight DepthFirst (sv "New York", sv "Los Angeles") main_db =
    Ok tt s'.
Proof.
  apply (search_flight_df_complete (sv "New York") (sv "Los Angeles")
           (sv "Toronto") 1800 main_db).
  - apply main_db_well_formed.
  - apply main_db_fresh.
  - fits_literal.
  - fits_literal.
  - reflexivity.
  - right. apply connected_direct with 800.
    exists (Flight_new (sv "New York", sv "Toronto") 800).
    split; [simpl; tauto | repeat split].
  - reflexivity.
  - lia.
Qed.

(** ** More fuel changes nothing *)

Lemma search_flight_df_more_fuel (n : nat) :
  forall (q : city_pair) (s : FlightDB),
    search_flight_df n q s <> OutOfFuel ->
    forall k, search_flight_df (n + k) q s = search_flight_df n q s.
Proof.
  induction n as [|n IH]; intros q s H k; [contradiction H; reflexivity|].
  cbn [Nat.add search_flight_df] in *. unfold bind in *.
  destruct (search_flight_df_body q s) as [[|q'] s1|s1|u|]; try reflexivity.
  apply IH; assumption.
Qed.

Lemma search_flight_bf_more_fuel (n : nat) :
  forall (q : city_pair) (s : FlightDB),
    search_flight_bf n q s <> OutOfFuel ->
    forall k, search_flight_bf (n + k) q s = search_flight_bf n q s.
Proof.
  induction n as [|n IH]; intros q s H k; [contradiction H; reflexivity|].
  cbn [Nat.add search_flight_bf] in *. unfold bind in *.
  destruct (search_flight_bf_body q s) as [[|q'] s1|s1|u|]; try reflexivity.
  apply IH; assumption.
Qed.

(** X1. Both strategies terminate.  A depth-first search needs no more
    activations than twice the number of unmarked flights plus the height
    of the stack plus one, a lookahead no more turns than the number of
    unmarked flights plus one: within these bounds the search has ended, and
    however many more activations are allowed, the outcome is the same. *)
Theorem searches_end_within_their_bounds (q : city_pair) (s : FlightDB) :
  search_flight DepthFirst q s <> OutOfFuel /\
  search_flight BreadthFirst q s <> OutOfFuel /\
  (forall k,
      search_flight_df (S (2 * unmarked (db s) + length (bt s)) + k) q s =
      search_flight DepthFirst q s) /\
  (forall k,
      search_flight_bf (S (unmarked (db s)) + k) q s =
      search_flight BreadthFirst q s).
Proof.
  split; [apply search_flight_total|]. split; [apply search_flight_total|].
  split; intros k.
  - apply search_flight_df_more_fuel.
    exact (search_flight_total DepthFirst q s).
  - apply search_flight_bf_more_fuel.
    exact (search_flight_total BreadthFirst q s).
Qed.

(** ** The stack between calls *)

Lemma drain_empties (fuel : nat) :
  forall (d : Z) (acc : list string_view) (s s' : FlightDB),
    state_of (drain fuel d acc s) = Some s' -> bt s' = [].
Proof.
  induction fuel as [|n IH]; intros d acc s s'; cbn [drain].
  - destruct (bt s) eqn:E; simpl; [|discriminate].
    intros H; inversion H; subst; assumption.
  - destruct (bt s) as [|f r] eqn:E; simpl.
    + intros H; inversion H; subst; assumption.
    + unfold bind at 1, bt_top. rewrite E.
      unfold bind at 1, view_of. destruct (c_str (from f)); [|discriminate].
      unfold bind at 1, int_add.
      destruct (in_int (d + distance f)); [|discriminate].
      unfold bind at 1, bt_pop. rewrite E. apply IH.
Qed.

Lemma route_tail_empties (q : city_pair) (beyond : list ascii)
      (s1 s' : FlightDB) :
  state_of ((r <- drain (length (bt s1)) 0 [] ;;
             last <- view_of (snd q ++ beyond) ;;
             ret {| stops := fst r; last_stop := last; total := snd r |}) s1)
  = Some s' ->
  bt s' = [].
Proof.
  unfold bind at 1.
  destruct (drain (length (bt s1)) 0 [] s1) as [r s2|s2| |] eqn:Ed;
    try discriminate.
  - unfold bind, view_of, ret.
    destruct (c_str (snd q ++ beyond)); [|discriminate].
    intros H; inversion H; subst.
    apply (drain_empties (length (bt s1)) 0 [] s1). rewrite Ed. reflexivity.
  - intros H; inversion H; subst.
    apply (drain_empties (length (bt s1)) 0 [] s1). rewrite Ed. reflexivity.
Qed.

Lemma search_flight_throw_keeps_stack (m : SearchMethod) (q : city_pair)
      (s s' : FlightDB) :
  search_flight m q s = BadOptionalAccess s' -> bt s' = bt s.
Proof.
  intros E. destruct m.
  - pose proof (search_flight_bf_no_report q s) as H. rewrite E in H.
    apply H.
  - pose proof (search_flight_df_no_report q s) as H. rewrite E in H.
    contradiction.
Qed.

(** X2. The stack is empty between the calls of the public member
    functions.  The constructor leaves it empty; [append_flight] does not
    touch it; when [route] returns it has popped every frame; and when
    [route] throws, from a state with an empty stack, the stack is empty
    still. *)
Theorem stack_is_empty_between_calls :
  (forall N, bt (FlightDB_new N) = []) /\
  (forall q d s s', append_flight q d s = Ok tt s' -> bt s' = bt s) /\
  (forall m q beyond s p s', route m q beyond s = Ok p s' -> bt s' = []) /\
  (forall m q beyond s s',
      bt s = [] -> route m q beyond s = BadOptionalAccess s' -> bt s' = []).
Proof.
  split; [reflexivity|]. split; [intros q d s s' H; inversion H; reflexivity|].
  split.
  - intros m q beyond s p s'. unfold route, bind at 1.
    destruct (search_flight m q s) as [[] s1| | |]; try discriminate.
    intros H. apply (route_tail_empties q beyond s1). rewrite H. reflexivity.
  - intros m q beyond s s' Hb. unfold route, bind at 1.
    destruct (search_flight m q s) as [[] s1|s1| |] eqn:E; try discriminate.
    + intros H. apply (route_tail_empties q beyond s1). rewrite H.
      reflexivity.
    + intros H; inversion H; subst.
      rewrite (search_flight_throw_keeps_stack _ _ _ _ E). exact Hb.
Qed.

Lemma stack_is_empty_between_calls_witness :
  bt main_db_routed = [] /\ bt main_db_thrown = [].
Proof.
  split.
  - apply (proj1 (proj2 (proj2 stack_is_empty_between_calls))
             DepthFirst (sv "New York", sv "Los Angeles") [NUL] main_db
             {| stops := [sv "Denver"; sv "Chicago"; sv "New York"];
                last_stop := sv "Los Angeles"; total := 3000 |}).
    vm_compute. reflexivity.
  - apply (proj2 (proj2 (proj2 stack_is_empty_between_calls))
             BreadthFirst (sv "Toronto", sv "Urbana") [NUL] main_db).
    + reflexivity.
    + vm_compute. reflexivity.
Defined.

(** ** Insertion and the lookups *)

Lemma find_if_app_Some (l l' : list Flight) (q : city_pair) (f : Flight) :
  find_if l q = Read (Some f) -> find_if (l ++ l') q = Read (Some f).
Proof.
  induction l as [|g l IH]; simpl; [discriminate|].
  destruct (Flight_eq g q) as [[|]|]; auto.
Qed.

Lemma connecting_app_Some (l l' r : list Flight) (frm : string_view)
      (f : Flight) :
  connecting l frm = Read (r, Some f) ->
  connecting (l ++ l') frm = Read (r ++ l', Some f).
Proof.
  revert r; induction l as [|g l IH]; simpl; intros r; [discriminate|].
  destruct (compare0 frm (from g)) as [b|]; [|discriminate].
  destruct (b && negb (skip g)).
  - intros H; inversion H; subst. reflexivity.
  - destruct (connecting l frm) as [[r' res]|]; [|discriminate].
    intros H; inversion H; subst. rewrite (IH r' eq_refl). reflexivity.
Qed.

Lemma matches_new (o d : string_view) (w : Z) :
  fits o -> fits d -> matches (Flight_new (o, d) w) (o, d).
Proof.
  intros Ho Hd. split; simpl; apply c_str_copy; assumption.
Qed.

(** X3. A flight appended under names that fit is found by both lookups as
    soon as no earlier flight answers: [get_distance] returns its distance
    for exactly the pair it was inserted with, and [find_connecting] from
    its origin returns its destination and distance and leaves it in the
    database with its [skip] mark up, the earlier flights and the stack
    being as they were. *)
Theorem appended_flight_is_found (o d : string_view) (w : Z)
        (s s' : FlightDB) :
  fits o -> fits d -> append_flight (o, d) w s = Ok tt s' ->
  skip (Flight_new (o, d) w) = false /\
  (Forall (differs (o, d)) (db s) ->
   get_distance (o, d) s' = Ok (Some w) s') /\
  (Forall (passed_over o) (db s) ->
   find_connecting o s' =
   Ok (Some (d, w))
      {| db := db s ++ [{| from := copy o; to := copy d; skip := true;
                           distance := w |}];
         bt := bt s |}).
Proof.
  intros Ho Hd E.
  assert (Es : s' = {| db := db s ++ [Flight_new (o, d) w]; bt := bt s |})
    by (unfold append_flight in E; congruence).
  subst s'. clear E. split; [reflexivity|]. split; intros H.
  - apply (get_distance_first _ (o, d) (db s) [] (Flight_new (o, d) w));
      [reflexivity | assumption | apply matches_new; assumption].
  - unfold find_connecting. cbn [db bt].
    rewrite (connecting_first (db s) [] (Flight_new (o, d) w) o H);
      [| simpl; apply c_str_copy; assumption | reflexivity].
    unfold bind, view_of, ret. simpl. rewrite (c_str_copy _ Hd). reflexivity.
Qed.

Lemma appended_flight_is_found_witness :
  skip (Flight_new (sv "C", sv "D") 3) = false /\
  get_distance (sv "C", sv "D")
    {| db := db two_hops ++ [Flight_new (sv "C", sv "D") 3]; bt := [] |} =
  Ok (Some 3)
     {| db := db two_hops ++ [Flight_new (sv "C", sv "D") 3]; bt := [] |} /\
  find_connecting (sv "C")
    {| db := db two_hops ++ [Flight_new (sv "C", sv "D") 3]; bt := [] |} =
  Ok (Some (sv "D", 3))
     {| db := db two_hops ++ [{| from := copy (sv "C"); to := copy (sv "D");
                                 skip := true; distance := 3 |}];
        bt := [] |}.
Proof.
  destruct (appended_flight_is_found (sv "C") (sv "D") 3 two_hops
              {| db := db two_hops ++ [Flight_new (sv "C", sv "D") 3];
                 bt := [] |}
              fits_sv_C ltac:(split; [vm_compute; lia | repeat constructor])
              eq_refl) as (Hs & Hg & Hf).
  split; [exact Hs|]. split.
  - apply Hg. repeat constructor.
  - apply Hf. repeat constructor; exists false; split; reflexivity.
Defined.

(** X4. The first flight inserted wins.  Once a lookup has an answer,
    appending a flight, whatever its names and distance and be it a
    parallel flight between the same two places, does not change that
    answer: [get_distance] still returns the distance of the earlier flight
    and [find_connecting] still takes the earlier flight. *)
Theorem first_inserted_flight_wins (q q' : city_pair) (w' : Z)
        (s s' : FlightDB) :
  append_flight q' w' s = Ok tt s' ->
  (forall w, get_distance q s = Ok (Some w) s ->
             get_distance q s' = Ok (Some w) s') /\
  (forall frm r s1, find_connecting frm s = Ok (Some r) s1 ->
                    find_connecting frm s' =
                    Ok (Some r)
                       {| db := db s1 ++ [Flight_new q' w']; bt := bt s1 |}).
Proof.
  intros E.
  assert (Es : s' = {| db := db s ++ [Flight_new q' w']; bt := bt s |})
    by (unfold append_flight in E; congruence).
  subst s'. clear E. split.
  - intros w. unfold get_distance. cbn [db].
    destruct (find_if (db s) q) as [[f|]|] eqn:Ef; try discriminate.
    intros H; inversion H; subst.
    rewrite (find_if_app_Some _ _ _ _ Ef). reflexivity.
  - intros frm r s1. unfold find_connecting. cbn [db bt].
    destruct (connecting (db s) frm) as [[l' [f|]]|] eqn:Ec; try discriminate.
    rewrite (connecting_app_Some _ _ _ _ _ Ec).
    unfold bind, view_of, ret. destruct (c_str (to f)); [|discriminate].
    intros H; inversion H; subst. reflexivity.
Qed.

Lemma first_inserted_flight_wins_witness :
  get_distance (sv "A", sv "B")
    {| db := db two_hops ++ [Flight_new (sv "A", sv "B") 9]; bt := [] |} =
  Ok (Some 5)
     {| db := db two_hops ++ [Flight_new (sv "A", sv "B") 9]; bt := [] |}.
Proof.
  apply (proj1 (first_inserted_flight_wins (sv "A", sv "B") (sv "A", sv "B")
                  9 two_hops _ eq_refl) 5).
  reflexivity.
Defined.

(** ** [find_connecting] never takes a flight twice *)

Lemma passed_over_marks (frm : string_view) (f g : Flight) :
  same_edge f g -> passed_over frm f -> passed_over frm g.
Proof.
  intros (Ef & _ & _ & Es) (b & Hb & Hs). exists b. rewrite <- Ef.
  split; [assumption|]. destruct b; [|reflexivity].
  simpl in *. apply negb_false_iff in Hs. rewrite (Es Hs). reflexivity.
Qed.

Lemma Forall_passed_over_marks (frm : string_view) (l l' : list Flight) :
  marks_only l l' -> forall n,
  Forall (passed_over frm) (firstn n l) ->
  Forall (passed_over frm) (firstn n l').
Proof.
  induction 1 as [|f g l l' Hfg _ IH]; intros [|n]; simpl; auto.
  intros H; inversion H; subst. constructor; [|apply IH; assumption].
  apply (passed_over_marks _ _ _ Hfg); assumption.
Qed.

Lemma taken_not_passed_over (frm : string_view) (g : Flight) :
  c_str (from g) = Some frm -> skip g = false -> ~ passed_over frm g.
Proof.
  intros Hf Hs (b & Hb & Hp). apply compare0_true in Hf.
  rewrite Hf in Hb. inversion Hb; subst. rewrite Hs in Hp. discriminate.
Qed.

(** X5. [find_connecting] never takes a flight twice.  When a call has
    taken the flight at some position of the vector, then in every later
    state of the database, reached by raising marks only, a call from the
    same origin that takes a flight takes one at a strictly later
    position. *)
Theorem find_connecting_moves_on (frm : string_view)
        (r r2 : string_view * Z) (s s1 s2 s3 : FlightDB) :
  find_connecting frm s = Ok (Some r) s1 ->
  marks_only (db s1) (db s2) ->
  find_connecting frm s2 = Ok (Some r2) s3 ->
  exists l1 g l2 l1' g' l2',
    db s = l1 ++ g :: l2 /\ db s1 = l1 ++ set_skip g :: l2 /\
    db s2 = l1' ++ g' :: l2' /\ db s3 = l1' ++ set_skip g' :: l2' /\
    skip g = false /\ skip g' = false /\
    (length l1 < length l1')%nat.
Proof.
  destruct r as [a w], r2 as [a2 w2]. intros H1 Hm H2.
  destruct (find_connecting_Some_inv _ _ _ _ _ H1)
    as (l1 & g & l2 & Hs & Hp & Hf & Hk & _ & _ & Hs1).
  destruct (find_connecting_Some_inv _ _ _ _ _ H2)
    as (l1' & g' & l2' & Hs2 & Hp' & Hf' & Hk' & _ & _ & Hs3).
  exists l1, g, l2, l1', g', l2'.
  rewrite Hs1, Hs3. simpl. repeat split; auto.
  destruct (Nat.lt_ge_cases (length l1) (length l1')) as [|Hle]; [assumption|].
  exfalso.
  assert (Hpre : Forall (passed_over frm) (firstn (S (length l1)) (db s1))).
  { rewrite Hs1. cbn [db].
    replace (l1 ++ set_skip g :: l2) with ((l1 ++ [set_skip g]) ++ l2)
      by (rewrite <- app_assoc; reflexivity).
    rewrite firstn_app.
    replace (S (length l1) - length (l1 ++ [set_skip g]))%nat with 0%nat
      by (rewrite length_app; cbn [length]; lia).
    rewrite firstn_all2 by (rewrite length_app; cbn [length]; lia).
    simpl. rewrite app_nil_r. apply Forall_app. split; [assumption|].
    constructor; [|constructor]. apply compare0_true in Hf.
    exists true. split; [exact Hf | reflexivity]. }
  pose proof (Forall_passed_over_marks frm _ _ Hm _ Hpre) as Hpre2.
  rewrite Hs2 in Hpre2.
  assert (Hin : In g' (firstn (S (length l1)) (l1' ++ g' :: l2'))).
  { rewrite firstn_app.
    apply in_or_app. right.
    destruct (S (length l1) - length l1')%nat eqn:En; [lia|].
    simpl. left; reflexivity. }
  apply (taken_not_passed_over frm g' Hf' Hk').
  apply (proj1 (Forall_forall _ _) Hpre2 g' Hin).
Qed.

Lemma find_connecting_moves_on_witness :
  exists l1 g l2 l1' g' l2',
    db main_db = l1 ++ g :: l2 /\
    db (mkDB (with_marks (db main_db)
                [true; false; false; false; false; false; false; false;
                 false; false; false]) []) = l1 ++ set_skip g :: l2 /\
    db (mkDB (with_marks (db main_db)
                [true; true; false; false; false; false; false; false;
                 false; false; false]) []) = l1' ++ g' :: l2' /\
    db (mkDB (with_marks (db main_db)
                [true; true; true; false; false; false; false; false;
                 false; false; false]) []) = l1' ++ set_skip g' :: l2' /\
    skip g = false /\ skip g' = false /\
    (length l1 < length l1')%nat.
Proof.
  apply (find_connecting_moves_on (sv "New York")
           (sv "Chicago", 1000) (sv "Toronto", 800) main_db).
  - reflexivity.
  - repeat constructor; intros H; auto.
  - reflexivity.
Defined.

(** ** Names of twenty characters or more *)

Lemma find_if_overrun (l1 l2 : list Flight) (f : Flight) (q : city_pair) :
  Forall (differs q) l1 -> Flight_eq f q = Overrun ->
  find_if (l1 ++ f :: l2) q = Overrun.
Proof.
  intros H Hf. induction H as [|g l1 Hg _ IH]; simpl.
  - rewrite Hf. reflexivity.
  - unfold differs in Hg. rewrite Hg. exact IH.
Qed.

Lemma connecting_overrun (l1 l2 : list Flight) (f : Flight)
      (frm : string_view) :
  Forall (passed_over frm) l1 -> c_str (from f) = None ->
  connecting (l1 ++ f :: l2) frm = Overrun.
Proof.
  intros H Hf. induction H as [|g l1 (b & Hb & Hg) _ IH]; simpl.
  - unfold compare0. rewrite Hf. reflexivity.
  - rewrite Hb, Hg, IH. reflexivity.
Qed.

(** X6. Names must be shorter than 20 characters.  A flight inserted under
    an origin of 20 characters or more (none of the first 20 being NUL)
    has no terminator in its origin array, and every lookup that reaches
    it, for whatever name, reads past the array.  With such a destination,
    the lookups that match the origin read past the destination array. *)
Theorem long_names_make_lookups_overrun (o d : string_view) (w : Z)
        (l1 l2 stack : list Flight) :
  (NAME_SIZE <= length o)%nat ->
  Forall (fun c => is_NUL c = false) (firstn NAME_SIZE o) ->
  (forall q, Forall (differs q) l1 ->
             get_distance q
               {| db := l1 ++ Flight_new (o, d) w :: l2; bt := stack |} =
             Undefined BufferOverrun) /\
  (forall frm, Forall (passed_over frm) l1 ->
               find_connecting frm
                 {| db := l1 ++ Flight_new (o, d) w :: l2; bt := stack |} =
               Undefined BufferOverrun) /\
  (forall o', fits o' ->
      (forall x, Forall (differs (o', x)) l1 ->
                 get_distance (o', x)
                   {| db := l1 ++ Flight_new (o', o) w :: l2; bt := stack |} =
                 Undefined BufferOverrun) /\
      (Forall (passed_over o') l1 ->
       find_connecting o'
         {| db := l1 ++ Flight_new (o', o) w :: l2; bt := stack |} =
       Undefined BufferOverrun)).
Proof.
  intros Hl Hn. pose proof (c_str_copy_long o Hl Hn) as Hc.
  split; [|split].
  - intros [qo qd] H. unfold get_distance. cbn [db].
    rewrite (find_if_overrun _ _ _ _ H); [reflexivity|].
    unfold Flight_eq, compare0. cbn [Flight_new from]. rewrite Hc.
    reflexivity.
  - intros frm H. unfold find_connecting. cbn [db].
    rewrite (connecting_overrun _ _ _ _ H); [reflexivity|].
    cbn [Flight_new from]. exact Hc.
  - intros o' Ho'. split.
    + intros x H. unfold get_distance. cbn [db].
      rewrite (find_if_overrun _ _ _ _ H); [reflexivity|].
      unfold Flight_eq. cbn [Flight_new from to].
      rewrite (compare0_copy _ _ Ho'), sv_eqb_refl.
      unfold compare0. rewrite Hc. reflexivity.
    + intros H. unfold find_connecting. cbn [db bt].
      rewrite (connecting_first _ _ _ _ H);
        [| cbn [Flight_new from]; apply c_str_copy; assumption | reflexivity].
      unfold bind, view_of. cbn [Flight_new to]. rewrite Hc. reflexivity.
Qed.

Lemma long_names_make_lookups_overrun_witness :
  get_distance (twenty_letters, sv "B")
    {| db := [Flight_new (twenty_letters, sv "B") 5]; bt := [] |} =
  Undefined BufferOverrun /\
  find_connecting (sv "A")
    {| db := [Flight_new (sv "A", twenty_letters) 5]; bt := [] |} =
  Undefined BufferOverrun.
Proof.
  split.
  - apply (proj1 (long_names_make_lookups_overrun twenty_letters (sv "B") 5
                    [] [] []
                    ltac:(vm_compute; lia) ltac:(repeat constructor))
             (twenty_letters, sv "B")).
    constructor.
  - apply (proj2 (proj2 (proj2 (long_names_make_lookups_overrun
                    twenty_letters (sv "B") 5 [] [] []
                    ltac:(vm_compute; lia) ltac:(repeat constructor)))
             (sv "A") ltac:(split; [vm_compute; lia | repeat constructor]))).
    constructor.
Defined.

(** ** The lookahead strategy, in general *)

Lemma get_distance_clear (q : city_pair) (s s2 : FlightDB) (r : option Z) :
  map clear_skip (db s2) = map clear_skip (db s) ->
  get_distance q s = Ok r s -> get_distance q s2 = Ok r s2.
Proof.
  intros Hm. pose proof (find_if_marks (db s) (db s2) q Hm) as H.
  unfold get_distance.
  destruct (find_if (db s) q) as [[f|]|], (find_if (db s2) q) as [[f'|]|];
    try contradiction; try discriminate.
  - intros E; inversion E; subst. rewrite H. reflexivity.
  - intros E; inversion E; subst. reflexivity.
Qed.

Lemma get_distance_marks (q : city_pair) (s s2 : FlightDB) (r : option Z) :
  marks_only (db s) (db s2) ->
  get_distance q s = Ok r s <-> get_distance q s2 = Ok r s2.
Proof.
  intros Hm. pose proof (marks_only_clear_skip _ _ Hm) as Hc.
  split; apply get_distance_clear; [exact Hc | symmetry; exact Hc].
Qed.

Lemma unmarked_before (l l' : list Flight) (g' : Flight) :
  marks_only l l' -> In g' l' -> skip g' = false ->
  exists g, In g l /\ skip g = false /\ from g = from g' /\ to g = to g' /\
            distance g = distance g'.
Proof.
  intros Hm Hin Hs.
  destruct (marks_only_In_rev _ _ _ Hm Hin) as (g & Hg & Ef & Et & Ed & Es).
  exists g. repeat split; auto.
  destruct (skip g); [|reflexivity]. rewrite (Es eq_refl) in Hs. discriminate.
Qed.

Lemma two_hop_marks (s s1 : FlightDB) (o dst a : string_view) (w d : Z) :
  marks_only (db s) (db s1) -> two_hop s1 o dst a w d -> two_hop s o dst a w d.
Proof.
  intros Hm ((g' & Hin & Hs & Hf & Ht & Hd) & Hw & Hg & Hd0).
  destruct (unmarked_before _ _ _ Hm Hin Hs) as (g & Hg1 & Hg2 & Ef & Et & Ed).
  split; [|split; [assumption|split; [|assumption]]].
  - exists g. rewrite Ef, Et, Ed. auto.
  - apply (get_distance_marks _ _ _ _ Hm). assumption.
Qed.

Lemma search_flight_bf_two_hop (fuel : nat) :
  forall (q : city_pair) (s s' : FlightDB),
    search_flight_bf fuel q s = Ok tt s' ->
    exists a w d,
      two_hop s (fst q) (snd q) a w d /\
      bt s' = Flight_new (a, snd q) d :: Flight_new q w :: bt s.
Proof.
  induction fuel as [|n IH]; intros q s s'; [discriminate|].
  cbn [search_flight_bf]. unfold bind at 1.
  pose proof (bf_body_step q s) as H.
  inversion H as [a w d s1 Hf Hw Hg Hd E | a w s1 Hf Hc E | Hf E | E];
    clear H; try discriminate.
  - unfold ret. intros Eq; inversion Eq; subst. simpl.
    assert (Hmo : marks_only (db s) (db s1))
      by (apply (preserves_find_connecting (fst q)); rewrite Hf; reflexivity).
    destruct (find_connecting_Some_inv _ _ _ _ _ Hf)
      as (l1 & g & l2 & Hl & _ & Hgf & Hgs & Hgt & Hgd & _).
    exists a, w, d. split; [|reflexivity].
    split; [|split; [assumption|split; [|assumption]]].
    + exists g. rewrite Hl. split; [apply in_elt | auto].
    + apply (get_distance_marks _ _ _ _ Hmo). assumption.
  - intros Eq.
    assert (Hmo : marks_only (db s) (db s1))
      by (apply (preserves_find_connecting (fst q)); rewrite Hf; reflexivity).
    destruct (IH q s1 s' Eq) as (a' & w' & d' & Ht & Hb).
    exists a', w', d'. split; [apply (two_hop_marks _ _ _ _ _ _ _ Hmo Ht)|].
    rewrite Hb, (find_connecting_bt _ _ _ _ Hf). reflexivity.
Qed.

(** X7. The lookahead strategy returns only with a route of exactly two
    flights: an unmarked flight of positive distance from the origin to
    some place, and the first exact flight from that place to the
    destination, of positive distance.  It pushes one frame for each, the
    second on top, both holding the searched destination; and it changes
    the flights by raising marks only. *)
Theorem lookahead_returns_a_two_flight_route (o dst : string_view)
        (s s' : FlightDB) :
  search_flight BreadthFirst (o, dst) s = Ok tt s' ->
  exists a w d,
    two_hop s o dst a w d /\
    bt s' = Flight_new (a, dst) d :: Flight_new (o, dst) w :: bt s /\
    marks_only (db s) (db s').
Proof.
  intros E.
  destruct (search_flight_bf_two_hop _ (o, dst) s s' E) as (a & w & d & Ht & Hb).
  exists a, w, d. split; [assumption|]. split; [assumption|].
  apply (preserves_search_flight BreadthFirst (o, dst)). rewrite E.
  reflexivity.
Qed.

Lemma lookahead_returns_a_two_flight_route_witness :
  exists a w d,
    two_hop main_db (sv "New York") (sv "Los Angeles") a w d /\
    bt main_db_lookahead =
    Flight_new (a, sv "Los Angeles") d
      :: Flight_new (sv "New York", sv "Los Angeles") w :: bt main_db /\
    marks_only (db main_db) (db main_db_lookahead).
Proof.
  apply (lookahead_returns_a_two_flight_route
           (sv "New York") (sv "Los Angeles") main_db main_db_lookahead).
  vm_compute. reflexivity.
Defined.

Lemma terminated_marks (l l' : list Flight) :
  marks_only l l' -> Forall terminated l -> Forall terminated l'.
Proof.
  induction 1 as [|a b l l' (Ef & Et & _ & _) _ IH]; intros H;
    inversion H as [|? ? [Hc1 Hc2] Hl]; subst; constructor; auto.
  unfold terminated. rewrite <- Ef, <- Et. auto.
Qed.

Lemma bf_body_defined (q : city_pair) (s : FlightDB) (u : UB) :
  Forall terminated (db s) -> search_flight_bf_body q s <> Undefined u.
Proof.
  intros Ht. destruct q as [frm dst].
  unfold search_flight_bf_body, bind at 1.
  destruct (find_connecting_cases frm s) as [(a & w & s1 & H)|[H|H]].
  - rewrite H. unfold bind at 1, value.
    assert (Ht1 : Forall terminated (db s1)).
    { apply (terminated_marks (db s)); [|assumption].
      apply (preserves_find_connecting frm). rewrite H. reflexivity. }
    destruct (0 <? w); [|discriminate].
    unfold bind at 1.
    destruct (get_distance_cases (a, dst) s1) as [[o Ho]|Ho].
    + rewrite Ho. destruct (0 <? value_or o 0); discriminate.
    + exfalso. exact (get_distance_defined _ _ Ht1 Ho).
  - rewrite H. discriminate.
  - exfalso. exact (find_connecting_defined _ _ Ht H).
Qed.

Lemma search_flight_bf_defined (fuel : nat) :
  forall (q : city_pair) (s : FlightDB) (u : UB),
    Forall terminated (db s) -> search_flight_bf fuel q s <> Undefined u.
Proof.
  induction fuel as [|n IH]; intros q s u Ht; [discriminate|].
  cbn [search_flight_bf]. unfold bind at 1.
  pose proof (bf_body_defined q s) as Hb.
  pose proof (preserves_bf_body q s) as Hp.
  destruct (search_flight_bf_body q s) as [[|q'] s1|s1|u'|]; try discriminate.
  - apply IH. apply (terminated_marks (db s)); [|assumption].
    apply Hp. reflexivity.
  - exfalso. exact (Hb u' Ht eq_refl).
Qed.

Lemma search_flight_bf_no_two_hop (fuel : nat) :
  forall (q : city_pair) (s s' : FlightDB),
    search_flight_bf fuel q s = BadOptionalAccess s' ->
    forall a w d, ~ two_hop s (fst q) (snd q) a w d.
Proof.
  induction fuel as [|n IH]; intros q s s'; [discriminate|].
  cbn [search_flight_bf]. unfold bind at 1.
  pose proof (bf_body_step q s) as H.
  inversion H as [a w d s1 Hf Hw Hg Hd E | a w s1 Hf Hc E | Hf E | E];
    clear H; try discriminate.
  - intros Eq a' w' d' ((g' & Hin & Hs & Hgf & Hgt & Hgd) & Hw' & Hg' & Hd').
    assert (Hmo : marks_only (db s) (db s1))
      by (apply (preserves_find_connecting (fst q)); rewrite Hf; reflexivity).
    destruct (find_connecting_Some_inv _ _ _ _ _ Hf)
      as (l1 & g & l2 & Hl & Hp & Hf1 & Hs1 & Ht1 & Hd1 & Hst).
    pose proof (proj1 (get_distance_marks _ _ _ _ Hmo) Hg') as Hg1.
    rewrite Hl in Hin. apply in_app_or in Hin. destruct Hin as [Hin|[<-|Hin]].
    + apply (taken_not_passed_over (fst q) g' Hgf Hs).
      apply (proj1 (Forall_forall _ _) Hp g' Hin).
    + rewrite Ht1 in Hgt. inversion Hgt; subst a'.
      destruct Hc as [Hc|(o' & Ho' & Hv)]; [lia|].
      rewrite Hg1 in Ho'. inversion Ho'; subst. simpl in Hv. lia.
    + apply (IH q s1 s' Eq a' w' d').
      split; [|split; [assumption|split; assumption]].
      exists g'. rewrite Hst. cbn [db].
      split; [apply in_or_app; right; right; assumption | auto].
  - intros _ a' w' d' ((g' & Hin & Hs & Hgf & _) & _).
    apply (taken_not_passed_over (fst q) g' Hgf Hs).
    apply (proj1 (Forall_forall _ _)
             (proj2 (find_connecting_None_inv _ _ _ Hf)) g' Hin).
Qed.

(** X8. The lookahead strategy throws [std::bad_optional_access] exactly
    when the database holds no two-flight route from an unmarked flight of
    the origin.  When it throws, every flight out of the origin is marked,
    the stack is as it was, and every later [find_connecting] from that
    origin returns nothing.  On flights whose arrays hold their
    terminators the strategy has no third outcome: it returns when there
    is such a route and throws when there is none. *)
Theorem lookahead_throws_when_no_two_flight_route (o dst : string_view)
        (s : FlightDB) :
  (forall s', search_flight BreadthFirst (o, dst) s = BadOptionalAccess s' ->
              (forall a w d, ~ two_hop s o dst a w d) /\
              exhausted (db s') o /\ bt s' = bt s /\
              find_connecting o s' = Ok None s') /\
  (Forall terminated (db s) ->
   (forall a w d, two_hop s o dst a w d ->
                  exists s', search_flight BreadthFirst (o, dst) s = Ok tt s') /\
   ((forall a w d, ~ two_hop s o dst a w d) ->
    exists s', search_flight BreadthFirst (o, dst) s = BadOptionalAccess s')).
Proof.
  split.
  - intros s' E. pose proof (search_flight_bf_no_report (o, dst) s) as H.
    rewrite E in H. destruct H as [Hp Hb]. simpl in Hp.
    split; [exact (search_flight_bf_no_two_hop _ (o, dst) s s' E)|].
    split; [apply passed_over_exhausted; assumption|].
    split; [assumption|].
    unfold find_connecting. rewrite (connecting_none _ _ Hp), state_eta.
    reflexivity.
  - intros Ht.
    pose proof (search_flight_bf_defined (S (unmarked (db s))) (o, dst) s) as Hu.
    pose proof (search_flight_total BreadthFirst (o, dst) s) as Hn.
    pose proof (search_flight_bf_no_two_hop (S (unmarked (db s))) (o, dst) s)
      as Hno.
    pose proof (search_flight_bf_two_hop (S (unmarked (db s))) (o, dst) s)
      as Hyes.
    unfold search_flight in *.
    destruct (search_flight_bf (S (unmarked (db s))) (o, dst) s)
      as [[] s1|s1|u|].
    + split; [intros; exists s1; reflexivity|].
      intros Hnone. destruct (Hyes s1 eq_refl) as (a & w & d & Hth & _).
      exfalso. exact (Hnone a w d Hth).
    + split; [|intros; exists s1; reflexivity].
      intros a w d Hth. exfalso. exact (Hno s1 eq_refl a w d Hth).
    + exfalso. exact (Hu u Ht eq_refl).
    + exfalso. exact (Hn eq_refl).
Qed.

Lemma nothing_leaves_Los_Angeles (dst a : string_view) (w d : Z) :
  ~ two_hop main_db (sv "Los Angeles") dst a w d.
Proof.
  intros ((g & Hin & _ & Hf & _) & _). simpl in Hin.
  repeat (destruct Hin as [<-|Hin]; [vm_compute in Hf; discriminate Hf|]).
  contradiction.
Qed.

Lemma lookahead_throws_when_no_two_flight_route_witness :
  find_connecting (sv "Toronto") main_db_thrown = Ok None main_db_thrown /\
  exists s',
    search_flight BreadthFirst (sv "Los Angeles", sv "Denver") main_db =
    BadOptionalAccess s'.
Proof.
  split.
  - apply (proj1 (lookahead_throws_when_no_two_flight_route
                    (sv "Toronto") (sv "Urbana") main_db) main_db_thrown).
    vm_compute. reflexivity.
  - apply (proj2 (lookahead_throws_when_no_two_flight_route
                    (sv "Los Angeles") (sv "Denver") main_db)).
    + apply well_formed_terminated. apply main_db_well_formed.
    + intros a w d. apply nothing_leaves_Los_Angeles.
Defined.

(** ** [route] after a lookahead *)

Lemma two_hop_fits (s : FlightDB) (o dst a : string_view) (w d : Z) :
  Forall well_formed (db s) -> two_hop s o dst a w d -> fits a.
Proof.
  intros Hwf ((g & Hin & _ & _ & Ht & _) & _).
  destruct (proj1 (Forall_forall _ _) Hwf g Hin) as (_ & Hl & _).
  apply (c_str_fits _ _ Hl Ht).
Qed.

(** X9. What [route<BreadthFirst>] prints.  On well-formed flights, with
    names that fit and an empty stack, when [route] returns it has printed
    the intermediate place first and the origin second; then the C string
    it reads at the destination view, which is the destination itself when
    a NUL follows the view in its buffer; and as distance the sum of the
    two flights' distances, which is an [int] ([route] does not return
    when the addition overflows).  The two flights are a two-flight route
    of the database, and the stack is empty again. *)
Theorem route_lookahead_prints_intermediate_first (o dst : string_view)
        (beyond : list ascii) (s s' : FlightDB) (p : printed) :
  Forall well_formed (db s) -> fits o -> fits dst -> bt s = [] ->
  route BreadthFirst (o, dst) beyond s = Ok p s' ->
  exists a w d,
    two_hop s o dst a w d /\
    stops p = [a; o] /\
    c_str (dst ++ beyond) = Some (last_stop p) /\
    (forall rest, beyond = NUL :: rest -> last_stop p = dst) /\
    total p = d + w /\ INT_MIN <= d + w <= INT_MAX /\
    bt s' = [].
Proof.
  intros Hwf Ho Hd Hb E. unfold route, bind at 1 in E.
  destruct (search_flight BreadthFirst (o, dst) s) as [[] s1| | |] eqn:Es;
    try discriminate.
  destruct (search_flight_bf_two_hop _ (o, dst) s s1 Es)
    as (a & w & d & Hth & Hbt).
  pose proof (two_hop_fits _ _ _ _ _ _ Hwf Hth) as Ha.
  rewrite Hb in Hbt. simpl in Hbt.
  unfold bind at 1 in E.
  destruct (drain (length (bt s1)) 0 [] s1) as [r s2| | |] eqn:Ed;
    try discriminate.
  destruct (drain_Ok_inv (bt s1) s1 s2 0 [] r eq_refl Ed) as [Hf Hs].
  rewrite (drain_frames (bt s1) s1 0 [] eq_refl Hf Hs) in Ed.
  inversion Ed; subst r s2. clear Ed.
  unfold bind at 1, view_of in E. cbn [snd] in E.
  destruct (c_str (dst ++ beyond)) as [last|] eqn:El; [|discriminate].
  unfold ret in E. inversion E; subst. simpl.
  exists a, w, d. split; [assumption|].
  assert (Hin : in_int (0 + sum_distance (bt s1)) = true)
    by (apply (sums_in_int_total (bt s1) 0 Hs); rewrite Hbt; discriminate).
  rewrite Hbt in *. cbn [map sum_distance fold_right distance] in *.
  rewrite !name_of_frame by assumption.
  split; [reflexivity|]. split; [reflexivity|].
  split.
  - intros rest ->. rewrite (c_str_terminated_view _ _ Hd) in El.
    inversion El; reflexivity.
  - apply in_int_iff in Hin. split; [lia|]. split; [lia | reflexivity].
Qed.

Lemma route_lookahead_prints_intermediate_first_witness :
  exists a w d,
    two_hop main_db (sv "New York") (sv "Los Angeles") a w d /\
    [sv "Toronto"; sv "New York"] = [a; sv "New York"] /\
    c_str (sv "Los Angeles" ++ [NUL]) = Some (sv "Los Angeles") /\
    (forall rest, [NUL] = NUL :: rest -> sv "Los Angeles" = sv "Los Angeles") /\
    2600 = d + w /\ INT_MIN <= d + w <= INT_MAX /\
    bt (mkDB (db main_db_lookahead) []) = [].
Proof.
  apply (route_lookahead_prints_intermediate_first
           (sv "New York") (sv "Los Angeles") [NUL] main_db
           (mkDB (db main_db_lookahead) [])
           {| stops := [sv "Toronto"; sv "New York"];
              last_stop := sv "Los Angeles"; total := 2600 |}).
  - apply main_db_well_formed.
  - fits_literal.
  - fits_literal.
  - reflexivity.
  - vm_compute. reflexivity.
Defined.

(** ** Well-formed flights are read without overrun *)

Lemma route_tail_defined (dst : string_view) (beyond : list ascii)
      (o : string_view) (s1 : FlightDB) :
  Forall (fun f => c_str (from f) <> None) (bt s1) ->
  c_str (dst ++ beyond) <> None ->
  (r <- drain (length (bt s1)) 0 [] ;;
   last <- view_of (snd (o, dst) ++ beyond) ;;
   ret {| stops := fst r; last_stop := last; total := snd r |}) s1
  <> Undefined BufferOverrun.
Proof.
  intros Hf Hc. unfold bind at 1.
  pose proof (drain_no_overrun (bt s1) s1 0 [] eq_refl Hf) as Hn.
  destruct (drain (length (bt s1)) 0 [] s1) as [r s2|s2|u|];
    try discriminate.
  - unfold bind, view_of, ret. cbn [snd].
    destruct (c_str (dst ++ beyond)); [discriminate | contradiction].
  - intros E. inversion E; subst. contradiction.
Qed.

Lemma route_df_defined (o dst : string_view) (beyond : list ascii)
      (s : FlightDB) :
  Forall well_formed (db s) -> fits o -> fits dst -> bt s = [] ->
  c_str (dst ++ beyond) <> None ->
  route DepthFirst (o, dst) beyond s <> Undefined BufferOverrun.
Proof.
  intros Hwf Ho Hd Hb Hv.
  assert (Hc : chain (db s) o dst o (bt s)) by (rewrite Hb; constructor).
  pose proof (search_flight_df_chain o dst
                (S (2 * unmarked (db s) + length (bt s))) o s Hwf Ho Hd Hc
                (Nat.lt_succ_diag_r _)) as H.
  unfold route, bind at 1, search_flight.
  destruct (search_flight_df _ (o, dst) s) as [[] s1| | u|]; simpl in H;
    try contradiction.
  - destruct H as (u & w & r & _ & _ & Hch).
    apply route_tail_defined; [|assumption].
    apply (chain_frames_terminated _ _ _ _ _ Hch).
  - subst u. discriminate.
Qed.

Lemma route_bf_defined (o dst : string_view) (beyond : list ascii)
      (s : FlightDB) :
  Forall well_formed (db s) -> fits o -> fits dst -> bt s = [] ->
  c_str (dst ++ beyond) <> None ->
  route BreadthFirst (o, dst) beyond s <> Undefined BufferOverrun.
Proof.
  intros Hwf Ho Hd Hb Hv.
  pose proof (search_flight_bf_defined (S (unmarked (db s))) (o, dst) s)
    as Hu.
  pose proof (search_flight_bf_two_hop (S (unmarked (db s))) (o, dst) s)
    as Hyes.
  unfold route, bind at 1, search_flight.
  destruct (search_flight_bf _ (o, dst) s) as [[] s1| | u|];
    try discriminate.
  - destruct (Hyes s1 eq_refl) as (a & w & d & Hth & Hbt).
    pose proof (two_hop_fits _ _ _ _ _ _ Hwf Hth) as Ha.
    rewrite Hb in Hbt. simpl in Hbt.
    apply route_tail_defined; [|assumption].
    rewrite Hbt. constructor; [|constructor; [|constructor]]; simpl.
    + rewrite (c_str_copy _ Ha). discriminate.
    + rewrite (c_str_copy _ Ho). discriminate.
  - exfalso.
    exact (Hu u (well_formed_terminated _ Hwf) eq_refl).
Qed.

(** X10. A database built from names that fit is read without overrun.
    The constructor's database is well formed, [append_flight] under names
    that fit keeps it so, and so does whatever [route] does; on a
    well-formed database, with names that fit and an empty stack, neither
    strategy ever reads past an array, and [route] does not either when the
    buffer of its destination view holds a NUL at or after the view's end
    (its last [printf] reads that buffer as a C string). *)
Theorem well_formed_flights_are_read_within_bounds :
  (forall N, Forall well_formed (db (FlightDB_new N))) /\
  (forall o d w s s',
      fits o -> fits d -> Forall well_formed (db s) ->
      append_flight (o, d) w s = Ok tt s' -> Forall well_formed (db s')) /\
  (forall m q beyond s s',
      Forall well_formed (db s) -> state_of (route m q beyond s) = Some s' ->
      Forall well_formed (db s')) /\
  (forall m o dst s,
      Forall well_formed (db s) -> fits o -> fits dst -> bt s = [] ->
      search_flight m (o, dst) s <> Undefined BufferOverrun /\
      (forall beyond, c_str (dst ++ beyond) <> None ->
                      route m (o, dst) beyond s <> Undefined BufferOverrun)).
Proof.
  split; [intros N; constructor|].
  split; [intros o d w s s'; apply append_flight_well_formed|].
  split.
  - intros m q beyond s s' Hwf H.
    apply (well_formed_marks (db s)); [|assumption].
    apply (preserves_route m q beyond); assumption.
  - intros m o dst s Hwf Ho Hd Hb. split.
    + destruct m.
      * apply search_flight_bf_defined.
        apply well_formed_terminated; assumption.
      * assert (Hc : chain (db s) o dst o (bt s))
          by (rewrite Hb; constructor).
        pose proof (search_flight_df_chain o dst
                      (S (2 * unmarked (db s) + length (bt s))) o s Hwf Ho Hd
                      Hc (Nat.lt_succ_diag_r _)) as H.
        unfold search_flight. intros E. rewrite E in H. discriminate H.
    + intros beyond Hv.
      destruct m; [apply route_bf_defined | apply route_df_defined];
        assumption.
Qed.

Lemma well_formed_flights_are_read_within_bounds_witness :
  Forall well_formed (db main_db_routed) /\
  route DepthFirst (sv "Chicago", sv "New York") [NUL] main_db <>
  Undefined BufferOverrun.
Proof.
  split.
  - apply (proj1 (proj2 (proj2 well_formed_flights_are_read_within_bounds))
             DepthFirst (sv "New York", sv "Los Angeles") [NUL] main_db).
    + apply main_db_well_formed.
    + vm_compute. reflexivity.
  - apply (proj2 (proj2 (proj2 (proj2
                    well_formed_flights_are_read_within_bounds))
             DepthFirst (sv "Chicago") (sv "New York") main_db
             main_db_well_formed
             ltac:(split; [vm_compute; lia | repeat constructor])
             ltac:(split; [vm_compute; lia | repeat constructor])
             eq_refl) [NUL]).
    vm_compute. discriminate.
Defined.

(** ** The depth-first strategy, in general *)

Lemma chain_marks_back (l l' : list Flight) (o dst cur : string_view)
      (st : list Flight) :
  marks_only l l' -> chain l' o dst cur st -> chain l o dst cur st.
Proof.
  intros Hm; induction 1 as [|u cur w r _ IH Hf Hu]; constructor; auto.
  apply (flight_between_marks _ _ _ _ _ Hm); assumption.
Qed.

(** X11. A depth-first search that returns has found a route.  On
    well-formed flights, with names that fit and an empty stack, the stack
    it leaves records, from its bottom to its top, flights of the database
    that lead from the origin to the destination: each frame holds the
    origin and the distance of its flight and the searched destination,
    and the top frame's distance is positive.  The flights are changed by
    raising marks only. *)
Theorem depth_first_return_is_a_route (o dst : string_view)
        (s s' : FlightDB) :
  Forall well_formed (db s) -> fits o -> fits dst -> bt s = [] ->
  search_flight DepthFirst (o, dst) s = Ok tt s' ->
  chain (db s) o dst dst (bt s') /\
  (exists u w r,
      bt s' = {| from := copy u; to := copy dst; skip := false;
                 distance := w |} :: r /\ 0 < w) /\
  connected (db s) o dst /\
  marks_only (db s) (db s').
Proof.
  intros Hwf Ho Hd Hb E.
  assert (Hmo : marks_only (db s) (db s'))
    by (apply (preserves_search_flight DepthFirst (o, dst)); rewrite E;
        reflexivity).
  destruct (search_flight_df_sound o dst s s' Hwf Ho Hd Hb E)
    as (Hch & _ & Hco).
  split; [apply (chain_marks_back _ _ _ _ _ _ Hmo Hch)|].
  split; [|split; assumption].
  assert (Hc : chain (db s) o dst o (bt s)) by (rewrite Hb; constructor).
  pose proof (search_flight_df_chain o dst
                (S (2 * unmarked (db s) + length (bt s))) o s Hwf Ho Hd Hc
                (Nat.lt_succ_diag_r _)) as H.
  unfold search_flight in E. rewrite E in H.
  destruct H as (u & w & r & Hbt & Hw & _). exists u, w, r. auto.
Qed.

Lemma depth_first_return_is_a_route_witness :
  chain (db main_db) (sv "New York") (sv "Los Angeles") (sv "Los Angeles")
        (bt main_db_after) /\
  (exists u w r,
      bt main_db_after =
      {| from := copy u; to := copy (sv "Los Angeles"); skip := false;
         distance := w |} :: r /\ 0 < w) /\
  connected (db main_db) (sv "New York") (sv "Los Angeles") /\
  marks_only (db main_db) (db main_db_after).
Proof.
  apply (depth_first_return_is_a_route (sv "New York") (sv "Los Angeles")
           main_db main_db_after).
  - apply main_db_well_formed.
  - fits_literal.
  - fits_literal.
  - reflexivity.
  - vm_compute. reflexivity.
Defined.

(** X12. A depth-first search finds a route when there is one it can
    accept.  On well-formed flights, none of them marked, with names that
    fit and an empty stack: if from the origin, or from a place that
    flights connect the origin to, the first exact flight to the
    destination has a positive distance, the search returns. *)
Theorem depth_first_finds_a_route (o dst x : string_view) (w : Z)
        (s : FlightDB) :
  Forall well_formed (db s) -> fresh (db s) -> fits o -> fits dst ->
  bt s = [] ->
  x = o \/ connected (db s) o x ->
  get_distance (x, dst) s = Ok (Some w) s -> 0 < w ->
  exists s', search_flight DepthFirst (o, dst) s = Ok tt s'.
Proof. apply search_flight_df_complete. Qed.

Lemma depth_first_finds_a_route_witness :
  exists s',
    search_flight DepthFirst (sv "New York", sv "Los Angeles") main_db =
    Ok tt s'.
Proof.
  apply (depth_first_finds_a_route (sv "New York") (sv "Los Angeles")
           (sv "Toronto") 1800 main_db).
  - apply main_db_well_formed.
  - apply main_db_fresh.
  - fits_literal.
  - fits_literal.
  - reflexivity.
  - right. apply connected_direct with 800.
    exists (Flight_new (sv "New York", sv "Toronto") 800).
    split; [simpl; tauto | repeat split].
  - reflexivity.
  - lia.
Defined.

(** X13. Without a route the depth-first search pops the empty stack.  On
    well-formed flights, with names that fit and an empty stack, when no
    flights lead from the origin to the destination the search ends in one
    way only: [bt.top()] and [bt.pop()] on the empty stack, which is
    undefined behaviour.  It never returns with an empty result. *)
Theorem depth_first_without_route_pops_empty_stack (o dst : string_view)
        (beyond : list ascii) (s : FlightDB) :
  Forall well_formed (db s) -> fits o -> fits dst -> bt s = [] ->
  ~ connected (db s) o dst ->
  search_flight DepthFirst (o, dst) s = Undefined StackUnderflow /\
  route DepthFirst (o, dst) beyond s = Undefined StackUnderflow.
Proof.
  intros Hwf Ho Hd Hb Hn.
  pose proof (search_flight_df_unreachable o dst s Hwf Ho Hd Hb Hn) as E.
  split; [exact E|]. unfold route, bind at 1. rewrite E. reflexivity.
Qed.

Lemma depth_first_without_route_pops_empty_stack_witness :
  search_flight DepthFirst (sv "Chicago", sv "New York") main_db =
  Undefined StackUnderflow /\
  route DepthFirst (sv "Chicago", sv "New York") [NUL] main_db =
  Undefined StackUnderflow.
Proof.
  apply (depth_first_without_route_pops_empty_stack
           (sv "Chicago") (sv "New York") [NUL] main_db).
  - apply main_db_well_formed.
  - fits_literal.
  - fits_literal.
  - reflexivity.
  - apply nothing_leads_to_New_York.
Defined.

(** X14. What [route<DepthFirst>] prints.  On well-formed flights, with
    names that fit and an empty stack, when [route] returns, the names it
    printed before the last one, read from the last to the first and
    followed by the destination, are a walk along flights of the database
    from the origin to the destination: the walk is printed backwards.
    The last name printed is the C string read at the destination view,
    the destination itself when a NUL follows the view in its buffer.  The
    distance printed is the sum of the flights' distances, and it is an
    [int]: [route] does not return when an addition overflows.  The stack
    is empty again. *)
Theorem route_depth_first_prints_the_walk_backwards (o dst : string_view)
        (beyond : list ascii) (s s' : FlightDB) (p : printed) :
  Forall well_formed (db s) -> fits o -> fits dst -> bt s = [] ->
  route DepthFirst (o, dst) beyond s = Ok p s' ->
  exists ws,
    walk (db s) (rev (stops p) ++ [dst]) ws /\
    hd_error (rev (stops p) ++ [dst]) = Some o /\
    stops p <> [] /\
    c_str (dst ++ beyond) = Some (last_stop p) /\
    (forall rest, beyond = NUL :: rest -> last_stop p = dst) /\
    total p = fold_right Z.add 0 ws /\
    INT_MIN <= total p <= INT_MAX /\
    bt s' = [].
Proof.
  intros Hwf Ho Hd Hb E.
  destruct (route_df_prints_walk_reversed o dst beyond s s' p Hwf Ho Hd Hb E)
    as (ws & Hw & Hh & Hne & Hl & Ht & Hr & Hbt).
  exists ws. repeat split; auto; try apply Hr.
  intros rest ->. rewrite (c_str_terminated_view _ _ Hd) in Hl.
  inversion Hl; reflexivity.
Qed.

Lemma route_depth_first_prints_the_walk_backwards_witness :
  exists ws,
    walk (db main_db)
         (rev [sv "Denver"; sv "Chicago"; sv "New York"]
            ++ [sv "Los Angeles"]) ws /\
    hd_error (rev [sv "Denver"; sv "Chicago"; sv "New York"]
                ++ [sv "Los Angeles"]) = Some (sv "New York") /\
    [sv "Denver"; sv "Chicago"; sv "New York"] <> [] /\
    c_str (sv "Los Angeles" ++ [NUL]) = Some (sv "Los Angeles") /\
    (forall rest, [NUL] = NUL :: rest -> sv "Los Angeles" = sv "Los Angeles") /\
    3000 = fold_right Z.add 0 ws /\
    INT_MIN <= 3000 <= INT_MAX /\
    bt main_db_routed = [].
Proof.
  apply (route_depth_first_prints_the_walk_backwards
           (sv "New York") (sv "Los Angeles") [NUL] main_db main_db_routed
           {| stops := [sv "Denver"; sv "Chicago"; sv "New York"];
              last_stop := sv "Los Angeles"; total := 3000 |}).
  - apply main_db_well_formed.
  - fits_literal.
  - fits_literal.
  - reflexivity.
  - vm_compute. reflexivity.
Defined.

(** ** A direct flight, and marks that stay *)

(** X15. A direct flight is taken at once.  When the first exact flight
    from the origin to the destination has a positive distance, the
    depth-first search returns with that single frame pushed and no flight
    marked, whatever other routes the database holds; [route], started on
    an empty stack with an origin that fits, then prints the origin, then
    the C string it reads at the destination view (the destination itself
    when a NUL follows the view in its buffer), and that distance. *)
Theorem direct_flight_is_taken_at_once (o dst : string_view) (w : Z)
        (s : FlightDB) :
  get_distance (o, dst) s = Ok (Some w) s -> 0 < w ->
  search_flight DepthFirst (o, dst) s =
  Ok tt {| db := db s; bt := Flight_new (o, dst) w :: bt s |} /\
  (fits o -> bt s = [] -> w <= INT_MAX ->
   forall beyond last,
     c_str (dst ++ beyond) = Some last ->
     route DepthFirst (o, dst) beyond s =
     Ok {| stops := [o]; last_stop := last; total := w |}
        {| db := db s; bt := [] |}) /\
  (fits o -> fits dst -> bt s = [] -> w <= INT_MAX ->
   forall rest,
     route DepthFirst (o, dst) (NUL :: rest) s =
     Ok {| stops := [o]; last_stop := dst; total := w |}
        {| db := db s; bt := [] |}).
Proof.
  intros Hg Hw.
  assert (E : search_flight DepthFirst (o, dst) s =
              Ok tt {| db := db s; bt := Flight_new (o, dst) w :: bt s |}).
  { unfold search_flight. cbn [search_flight_df].
    unfold bind at 1, search_flight_df_body, bind at 1. rewrite Hg.
    apply Z.ltb_lt in Hw. cbn [value_or]. rewrite Hw. reflexivity. }
  assert (R : fits o -> bt s = [] -> w <= INT_MAX ->
              forall beyond last,
                c_str (dst ++ beyond) = Some last ->
                route DepthFirst (o, dst) beyond s =
                Ok {| stops := [o]; last_stop := last; total := w |}
                   {| db := db s; bt := [] |}).
  { intros Ho Hb Hmax beyond last Hl.
    unfold route, bind at 1. rewrite E, Hb. unfold bind at 1.
    set (s1 := {| db := db s; bt := [Flight_new (o, dst) w] |}).
    rewrite (drain_frames (bt s1) s1 0 [] eq_refl).
    + unfold bind, view_of, ret, s1.
      cbn [fst snd map sum_distance fold_right rev app db bt Flight_new
               distance].
      rewrite Hl, (name_of_frame _ _ _ _ Ho).
      replace (0 + (w + 0)) with w by lia. reflexivity.
    + constructor; [|constructor]. simpl. rewrite (c_str_copy _ Ho).
      discriminate.
    + unfold s1. cbn [bt sums_in_int Flight_new distance].
      rewrite andb_true_r. apply in_int_iff. unfold INT_MIN. lia. }
  split; [exact E|]. split; [exact R|].
  intros Ho Hd Hb Hmax rest. apply (R Ho Hb Hmax).
  apply c_str_terminated_view; assumption.
Qed.

Lemma direct_flight_is_taken_at_once_witness :
  route DepthFirst (sv "New York", sv "Denver") [NUL] main_db =
  Ok {| stops := [sv "New York"]; last_stop := sv "Denver"; total := 1900 |}
     {| db := db main_db; bt := [] |}.
Proof.
  apply (proj1 (proj2 (direct_flight_is_taken_at_once
                         (sv "New York") (sv "Denver")
                         1900 main_db eq_refl ltac:(lia)))).
  - fits_literal.
  - reflexivity.
  - vm_compute. discriminate.
  - reflexivity.
Defined.

(** X16. Marks are never cleared, so an origin that is used up stays used
    up.  When every flight out of an origin is marked, a lookahead from
    that origin throws at once, for every destination, and leaves the state
    as it is; this is the state every throwing lookahead leaves behind. *)
Theorem used_up_origin_throws_at_once (o : string_view) (s : FlightDB) :
  Forall (passed_over o) (db s) ->
  forall dst, search_flight BreadthFirst (o, dst) s = BadOptionalAccess s.
Proof.
  intros Hp dst. unfold search_flight. cbn [search_flight_bf].
  unfold bind at 1, search_flight_bf_body, bind at 1.
  unfold find_connecting. rewrite (connecting_none _ _ Hp), state_eta.
  reflexivity.
Qed.

Lemma used_up_origin_throws_at_once_witness :
  search_flight BreadthFirst (sv "Toronto", sv "Calgary") main_db_thrown =
  BadOptionalAccess main_db_thrown.
Proof.
  apply (used_up_origin_throws_at_once (sv "Toronto") main_db_thrown).
  repeat constructor;
    (exists true; split; reflexivity) || (exists false; split; reflexivity).
Defined.

(** X17. What the strategies never do.  A depth-first search never throws
    and never returns with an empty stack: it has no way of saying that no
    route was found.  A lookahead never pops the stack: it returns with
    two frames more than it started with, or throws with the stack as it
    was. *)
Theorem outcomes_the_strategies_never_have (q : city_pair) (s : FlightDB) :
  (forall s', search_flight DepthFirst q s <> BadOptionalAccess s') /\
  (forall s', search_flight DepthFirst q s = Ok tt s' -> bt s' <> []) /\
  search_flight BreadthFirst q s <> Undefined StackUnderflow /\
  (forall s', search_flight BreadthFirst q s = Ok tt s' ->
              length (bt s') = S (S (length (bt s)))) /\
  (forall s', search_flight BreadthFirst q s = BadOptionalAccess s' ->
              bt s' = bt s).
Proof.
  pose proof (search_flight_df_no_report q s) as Hd.
  pose proof (search_flight_bf_no_report q s) as Hb.
  repeat split.
  - intros s' E. rewrite E in Hd. exact Hd.
  - intros s' E. rewrite E in Hd. exact Hd.
  - intros E. rewrite E in Hb. discriminate Hb.
  - intros s' E. rewrite E in Hb. destruct Hb as (a & w & d & _ & _ & ->).
    reflexivity.
  - intros s' E. rewrite E in Hb. apply Hb.
Qed.

Lemma outcomes_the_strategies_never_have_witness :
  bt main_db_after <> [] /\
  length (bt main_db_lookahead) = S (S (length (bt main_db))).
Proof.
  split.
  - apply (proj1 (proj2 (outcomes_the_strategies_never_have
                           (sv "New York", sv "Los Angeles") main_db))
             main_db_after).
    vm_compute. reflexivity.
  - apply (proj1 (proj2 (proj2 (proj2 (outcomes_the_strategies_never_have
                           (sv "New York", sv "Los Angeles") main_db))))
             main_db_lookahead).
    vm_compute. reflexivity.
Defined.

(** X18. A search does not change what [get_distance] answers.  In the
    state a search or [route] returns or throws in, [get_distance] returns
    for every pair what it returned before: the marks the search has
    raised are not read by it. *)
Theorem get_distance_is_stable_under_search (m : SearchMethod)
        (q0 q : city_pair) (s s' : FlightDB) (r : option Z) :
  state_of (search_flight m q0 s) = Some s' \/
  (exists beyond, state_of (route m q0 beyond s) = Some s') ->
  get_distance q s = Ok r s -> get_distance q s' = Ok r s'.
Proof.
  intros H.
  assert (Hm : marks_only (db s) (db s')).
  { destruct H as [H|[beyond H]].
    - exact (preserves_search_flight m q0 s s' H).
    - exact (preserves_route m q0 beyond s s' H). }
  exact (proj1 (get_distance_marks q s s' r Hm)).
Qed.

Lemma get_distance_is_stable_under_search_witness :
  get_distance (sv "New York", sv "Chicago") main_db_after =
  Ok (Some 1000) main_db_after.
Proof.
  apply (get_distance_is_stable_under_search DepthFirst
           (sv "New York", sv "Los Angeles") (sv "New York", sv "Chicago")
           main_db main_db_after (Some 1000)).
  - left. reflexivity.
  - reflexivity.
Defined.

(** ** When [route] returns *)

(** On frames that can be read, the loop of [route] runs into the first sum
    that is not an [int]. *)
Lemma drain_overflows (frames : list Flight) :
  forall (s : FlightDB) (d : Z) (acc : list string_view),
    bt s = frames -> Forall (fun f => c_str (from f) <> None) frames ->
    sums_in_int d frames = false ->
    drain (length frames) d acc s = Undefined SignedOverflow.
Proof.
  induction frames as [|f r IH]; intros s d acc Hb Hf Hs; [discriminate|].
  inversion Hf as [|? ? Hc Hr]; subst. cbn [length drain]. rewrite Hb.
  unfold bind at 1, bt_top. rewrite Hb.
  unfold bind at 1, view_of. destruct (c_str (from f)) as [v|] eqn:Ev;
    [|contradiction].
  unfold bind at 1, int_add. simpl in Hs.
  destruct (in_int (d + distance f)) eqn:Hi; [|reflexivity].
  unfold bind, bt_pop. rewrite Hb.
  apply (IH {| db := db s; bt := r |} _ _ eq_refl Hr Hs).
Qed.

(** The frames a search leaves on the stack can be read. *)
Lemma search_frames_readable (m : SearchMethod) (o dst : string_view)
      (s s1 : FlightDB) :
  Forall well_formed (db s) -> fits o -> fits dst -> bt s = [] ->
  search_flight m (o, dst) s = Ok tt s1 ->
  Forall (fun f => c_str (from f) <> None) (bt s1).
Proof.
  intros Hwf Ho Hd Hb E. destruct m; unfold search_flight in E.
  - destruct (search_flight_bf_two_hop _ _ _ _ E) as (a & w & d & Hth & Hbt).
    pose proof (two_hop_fits _ _ _ _ _ _ Hwf Hth) as Ha.
    rewrite Hb in Hbt. simpl in Hbt. rewrite Hbt.
    constructor; [|constructor; [|constructor]]; simpl.
    + rewrite (c_str_copy _ Ha). discriminate.
    + rewrite (c_str_copy _ Ho). discriminate.
  - assert (Hc : chain (db s) o dst o (bt s)) by (rewrite Hb; constructor).
    pose proof (search_flight_df_chain o dst
                  (S (2 * unmarked (db s) + length (bt s))) o s Hwf Ho Hd Hc
                  (Nat.lt_succ_diag_r _)) as H.
    rewrite E in H. simpl in H. destruct H as (u & w & r & _ & _ & Hch).
    apply (chain_frames_terminated _ _ _ _ _ Hch).
Qed.

(** X21. When [route] returns.  On well-formed flights, with names that fit
    and an empty stack, once the search of either strategy has returned
    [route] ends in one of three ways, decided by the stack the search left
    and by the buffer of the destination view.  When every sum the loop
    forms is an [int] and the buffer holds a NUL at or after the end of the
    view, [route] returns: it has printed the frames' origins from the top
    of the stack down, the C string read at the destination view and the
    sum of the frames' distances, the stack is empty and the flights are
    as the search left them.  When a sum leaves the range of [int] the
    addition is undefined behaviour; when the sums are [int]s and the
    buffer holds no NUL the last [printf] reads past it. *)
Theorem route_returns_after_the_search (m : SearchMethod)
        (o dst : string_view) (beyond : list ascii) (s s1 : FlightDB) :
  Forall well_formed (db s) -> fits o -> fits dst -> bt s = [] ->
  search_flight m (o, dst) s = Ok tt s1 ->
  (sums_in_int 0 (bt s1) = true ->
   forall last,
     c_str (dst ++ beyond) = Some last ->
     route m (o, dst) beyond s =
     Ok {| stops := map name_of (bt s1); last_stop := last;
           total := sum_distance (bt s1) |}
        {| db := db s1; bt := [] |}) /\
  (sums_in_int 0 (bt s1) = false ->
   route m (o, dst) beyond s = Undefined SignedOverflow) /\
  (sums_in_int 0 (bt s1) = true -> c_str (dst ++ beyond) = None ->
   route m (o, dst) beyond s = Undefined BufferOverrun).
Proof.
  intros Hwf Ho Hd Hb E.
  pose proof (search_frames_readable m o dst s s1 Hwf Ho Hd Hb E) as Hr.
  split; [|split].
  - intros Hs last Hl. unfold route, bind at 1. rewrite E.
    unfold bind at 1.
    rewrite (drain_frames (bt s1) s1 0 [] eq_refl Hr Hs).
    unfold bind, view_of, ret. cbn [snd fst]. rewrite Hl. reflexivity.
  - intros Hs. unfold route, bind at 1. rewrite E. unfold bind at 1.
    rewrite (drain_overflows (bt s1) s1 0 [] eq_refl Hr Hs). reflexivity.
  - intros Hs Hl. unfold route, bind at 1. rewrite E. unfold bind at 1.
    rewrite (drain_frames (bt s1) s1 0 [] eq_refl Hr Hs).
    unfold bind, view_of, ret. cbn [snd fst]. rewrite Hl. reflexivity.
Qed.

(** The database A -> B -> C of distances 5 and 7, where [route] returns
    with the sum 12; the same route with the largest [int] and 1 as
    distances, where the second addition overflows; and a destination view
    whose buffer ends without NUL. *)
Lemma route_returns_after_the_search_witness :
  route DepthFirst (sv "A", sv "C") [NUL] two_hops =
  Ok {| stops := [sv "B"; sv "A"]; last_stop := sv "C"; total := 12 |}
     {| db := with_marks (db two_hops) [true; false]; bt := [] |} /\
  route DepthFirst (sv "A", sv "C") [NUL] far_hops =
  Undefined SignedOverflow /\
  route DepthFirst (sv "A", sv "C") [] two_hops = Undefined BufferOverrun.
Proof.
  split; [|split].
  - apply (proj1 (route_returns_after_the_search DepthFirst (sv "A") (sv "C")
                    [NUL] two_hops
                    {| db := with_marks (db two_hops) [true; false];
                       bt := [Flight_new (sv "B", sv "C") 7;
                              Flight_new (sv "A", sv "C") 5] |}
                    ltac:(repeat constructor; try (vm_compute; discriminate))
                    ltac:(fits_literal) ltac:(fits_literal)
                    eq_refl eq_refl) eq_refl (sv "C") eq_refl).
  - apply (proj1 (proj2 (route_returns_after_the_search DepthFirst
                           (sv "A") (sv "C") [NUL] far_hops
                           {| db := with_marks (db far_hops) [true; false];
                              bt := [Flight_new (sv "B", sv "C") 1;
                                     Flight_new (sv "A", sv "C") 2147483647]
                           |}
                           ltac:(repeat constructor; try (vm_compute; discriminate))
                           ltac:(fits_literal) ltac:(fits_literal)
                           eq_refl eq_refl)) eq_refl).
  - apply (proj2 (proj2 (route_returns_after_the_search DepthFirst
                           (sv "A") (sv "C") [] two_hops
                           {| db := with_marks (db two_hops) [true; false];
                              bt := [Flight_new (sv "B", sv "C") 7;
                                     Flight_new (sv "A", sv "C") 5] |}
                           ltac:(repeat constructor; try (vm_compute; discriminate))
                           ltac:(fits_literal) ltac:(fits_literal)
                           eq_refl eq_refl)) eq_refl eq_refl).
Defined.
